(** * The barrel generator of [tool/auto-barrel-shotgun.ts]

    A shallow embedding of the export-aggregator walker: the identifier
    deriver [Namespace], the ignore [Context] with its cascading [ignored]
    query, and the directory walker [barrel] running against a model of
    the file system.

    Strings are sequences of character codes.  Every comparison the tool
    makes ('.', '/', the ranges a-z, A-Z, 0-9) is against a code below 128,
    and every other code is treated alike, so characters are modelled by
    [ascii] codes and strings by [string]. *)

From Stdlib Require Import ZArith Ascii String List Lia Bool.
From stdpp Require Import base option list strings gmap fin_maps sorting.

Local Open Scope Z_scope.

(** ** String primitives of the host language *)

Module Js.

(** [s.charCodeAt(0)] for the one-character string [s = str[i]]. *)
Definition charCodeAt (c : ascii) : Z := Z.of_nat (nat_of_ascii c).

Definition fromCharCode (n : Z) : ascii := ascii_of_nat (Z.to_nat n).

(** [c.toUpperCase()] and [c.toLowerCase()] on a single character; only
    the letters of the ASCII range have a case in this model. *)
Definition toUpperCase (c : ascii) : ascii :=
  let n := charCodeAt c in
  if (97 <=? n) && (n <=? 122) then fromCharCode (n - 32) else c.

Definition toLowerCase (c : ascii) : ascii :=
  let n := charCodeAt c in
  if (65 <=? n) && (n <=? 90) then fromCharCode (n + 32) else c.

(** [s.lastIndexOf(c)]: the greatest index holding [c], or [-1]. *)
Fixpoint lastIndexOf_from (s : string) (c : ascii) (i acc : Z) : Z :=
  match s with
  | EmptyString => acc
  | String a s' =>
      lastIndexOf_from s' c (i + 1) (if Ascii.eqb a c then i else acc)
  end.

Definition lastIndexOf (s : string) (c : ascii) : Z :=
  lastIndexOf_from s c 0 (-1).

(** [s.slice(0, i)] for [0 <= i]. *)
Definition slice0 (s : string) (i : Z) : string :=
  String.substring 0 (Z.to_nat i) s.

(** [s.length]. *)
Definition length (s : string) : Z := Z.of_nat (String.length s).

(** [s.startsWith(p)]. *)
Definition startsWith (s p : string) : bool := String.prefix p s.

(** [out += c]. *)
Definition push (out : string) (c : ascii) : string :=
  out +:+ String c EmptyString.

End Js.

(** ** Identifier deriver: [Namespace] and [IsLetterNumber] *)

Definition IsLetterNumber (c : ascii) : bool :=
  let char := Js.charCodeAt c in
  if (Js.charCodeAt "a" <=? char) && (char <=? Js.charCodeAt "z") then true
  else if (Js.charCodeAt "A" <=? char) && (char <=? Js.charCodeAt "Z") then true
  else if (Js.charCodeAt "0" <=? char) && (char <=? Js.charCodeAt "9") then true
  else false.

(** The [for (let i=0; i<str.length; i++)] loop of [Namespace]; [steps]
    bounds the iterations left and [get i str = None] is the exit test
    [i < str.length] failing. *)
Fixpoint Namespace_loop (str : string) (steps i : nat)
    (capital : bool) (out : string) : string :=
  match steps with
  | O => out
  | S steps' =>
      match String.get i str with
      | None => out
      | Some ch =>
          if negb (IsLetterNumber ch) then
            Namespace_loop str steps' (S i) true out
          else if capital then
            Namespace_loop str steps' (S i) false (Js.push out (Js.toUpperCase ch))
          else
            Namespace_loop str steps' (S i) capital (Js.push out (Js.toLowerCase ch))
      end
  end.

Definition Namespace (str : string) : string :=
  let i := Js.lastIndexOf str "." in
  let str := if negb (i =? -1) then Js.slice0 str i else str in
  if Js.length str <? 1 then EmptyString
  else Namespace_loop str (String.length str) 0 true EmptyString.

(** *** The deriver as the design document words it *)

Module Reference.

Definition is_ascii_letter (c : ascii) : bool :=
  ((("a" <=? c) && (c <=? "z")) || (("A" <=? c) && (c <=? "Z")))%char.

Definition is_ascii_digit (c : ascii) : bool :=
  (("0" <=? c) && (c <=? "9"))%char.

Definition alnum (c : ascii) : bool := is_ascii_letter c || is_ascii_digit c.

Fixpoint has_dot (s : string) : bool :=
  match s with
  | EmptyString => false
  | String a r => Ascii.eqb a "." || has_dot r
  end.

(** Drop everything from the last ['.'] onward, when there is one. *)
Fixpoint stem (s : string) : string :=
  match s with
  | EmptyString => EmptyString
  | String a r =>
      if Ascii.eqb a "." && negb (has_dot r) then EmptyString
      else String a (stem r)
  end.

(** Left-to-right scan with the start-of-segment flag. *)
Fixpoint scan (start : bool) (s : string) : string :=
  match s with
  | EmptyString => EmptyString
  | String a r =>
      if alnum a then
        String (if start then Js.toUpperCase a else Js.toLowerCase a)
               (scan false r)
      else scan true r
  end.

Definition deriveIdentifier (filename : string) : string :=
  let st := stem filename in
  if String.eqb st EmptyString then EmptyString else scan true st.

End Reference.

(** A character code in one of the ranges 0-9, A-Z, a-z. *)
Definition AsciiAlnum (c : ascii) : Prop :=
  let n := Js.charCodeAt c in
  48 <= n <= 57 \/ 65 <= n <= 90 \/ 97 <= n <= 122.

(** ** The pattern matcher

    The [ignore] package is an external dependency.  The walker uses two
    of its operations: [ignore().add(text)], which compiles the text of a
    rule file, and [rules.test(path).ignored], the verdict on a path. *)

Class IgnoreEngine := {
  Ignore : Type;
  ignore_add : string -> Ignore;
  ignore_test : Ignore -> string -> bool
}.

(** ** The file system

    A store from path keys to nodes.  A key is a path without its trailing
    separator: the walker lists ["./a/"] and stats ["./a"], and both name
    the node stored under ["./a"].  A directory node carries its listing in
    the order [readdir] yields it.  A file carries its text and whether it
    may be read.  [Other] stands for whatever [lstat] reports as neither a
    regular file nor a directory (links, devices); the model does not
    follow links, so reading or writing through such a node fails.

    The store need not be a tree: a listing may name what is not stored.
    Where a statement needs listings to hold proper names it says so
    ([listing_ok]). *)

Module Fs.

Inductive node : Type :=
| File (readable : bool) (data : string)
| Dir (names : list string)
| Other.

Inductive Stats : Type := StFile | StDir | StOther.

Definition isDirectory (st : Stats) : bool :=
  match st with StDir => true | _ => false end.

Definition isFile (st : Stats) : bool :=
  match st with StFile => true | _ => false end.

Inductive errno : Type := ENOENT | ENOTDIR | EISDIR | EACCES.

(** What an awaited call comes back with: a value, a thrown error, or
    [Timeout] when the recursion budget of the model ran out. *)
Inductive outcome (A : Type) : Type :=
| Done (a : A)
| Throw (e : errno)
| Timeout.
Global Arguments Done {A} a.
Global Arguments Throw {A} e.
Global Arguments Timeout {A}.

Definition IO (A : Type) : Type :=
  gmap string node -> outcome A * gmap string node.

Definition ret {A} (a : A) : IO A := fun fs => (Done a, fs).

Definition bind {A B} (m : IO A) (f : A -> IO B) : IO B :=
  fun fs =>
    match m fs with
    | (Done a, fs') => f a fs'
    | (Throw e, fs') => (Throw e, fs')
    | (Timeout, fs') => (Timeout, fs')
    end.

Definition timeout {A} : IO A := fun fs => (Timeout, fs).

(** [try { return await m } catch (_e) { return null }]. *)
Definition try_or_null {A} (m : IO A) : IO (option A) :=
  fun fs =>
    match m fs with
    | (Done a, fs') => (Done (Some a), fs')
    | (Throw _, fs') => (Done None, fs')
    | (Timeout, fs') => (Timeout, fs')
    end.

Fixpoint has_slash (p : string) : bool :=
  match p with
  | EmptyString => false
  | String a r => Ascii.eqb a "/" || has_slash r
  end.

(** The key of a path: one trailing separator removed. *)
Fixpoint key (p : string) : string :=
  match p with
  | EmptyString => EmptyString
  | String a r =>
      match r with
      | EmptyString => if Ascii.eqb a "/" then EmptyString else p
      | _ => String a (key r)
      end
  end.

Fixpoint before_last_slash (p : string) : string :=
  match p with
  | EmptyString => EmptyString
  | String a r =>
      if Ascii.eqb a "/" && negb (has_slash r) then EmptyString
      else String a (before_last_slash r)
  end.

Definition dirname (p : string) : string :=
  if has_slash p then before_last_slash p else ".".

Fixpoint basename (p : string) : string :=
  match p with
  | EmptyString => EmptyString
  | String a r => if has_slash p then basename r else p
  end.

(** A directory gains a name at the end of its listing unless it is
    listed already. *)
Definition link (name : string) (names : list string) : list string :=
  if bool_decide (name ∈ names) then names else names ++ [name].

Definition readFile (path : string) : IO string :=
  fun fs =>
    match fs !! key path with
    | Some (File true data) => (Done data, fs)
    | Some (File false _) => (Throw EACCES, fs)
    | Some (Dir _) => (Throw EISDIR, fs)
    | Some Other => (Throw EACCES, fs)
    | None => (Throw ENOENT, fs)
    end.

Definition readdir (path : string) : IO (list string) :=
  fun fs =>
    match fs !! key path with
    | Some (Dir names) => (Done names, fs)
    | Some _ => (Throw ENOTDIR, fs)
    | None => (Throw ENOENT, fs)
    end.

Definition lstat (path : string) : IO Stats :=
  fun fs =>
    match fs !! key path with
    | Some (File _ _) => (Done StFile, fs)
    | Some (Dir _) => (Done StDir, fs)
    | Some Other => (Done StOther, fs)
    | None => (Throw ENOENT, fs)
    end.

(** The node left under a key by writing [data] to it: an existing file
    keeps its permission, a new file is readable. *)
Definition written (data : string) (old : option node) : node :=
  match old with
  | Some (File r _) => File r data
  | _ => File true data
  end.

(** [writeFile(path, data)]: the directory of the path must exist; a
    directory cannot be overwritten; the file is created or replaced and
    its name is listed in its directory. *)
Definition writeFile (path data : string) : IO unit :=
  fun fs =>
    let k := key path in
    match fs !! dirname k with
    | Some (Dir names) =>
        match fs !! k with
        | Some (Dir _) => (Throw EISDIR, fs)
        | Some Other => (Throw EACCES, fs)
        | old =>
            (Done tt,
             <[k := written data old]>
               (<[dirname k := Dir (link (basename k) names)]> fs))
        end
    | Some _ => (Throw ENOTDIR, fs)
    | None => (Throw ENOENT, fs)
    end.

End Fs.

Import Fs.

#[export] Instance io_ret : MRet IO := @Fs.ret.
#[export] Instance io_bind : MBind IO := fun A B f m => Fs.bind m f.

(** [WeakRead]: a failed read is swallowed and reported as [null]. *)
Definition WeakRead (path : string) : IO (option string) :=
  try_or_null (readFile path).

(** ** The ignore context and the walker *)

Record Entry : Type := mkEntry { namespace : string; path : string }.

Section Walker.

Context {engine : IgnoreEngine}.

#[warnings="-register-all"]
Inductive Context : Type :=
  mkContext {
    parent : option Context;
    rules : option Ignore;
    folder : string;
    fullPath : string
  }.

(** [new Context(folder, parent)]. *)
Definition new_Context (folder : string) (parent : option Context) : Context :=
  {| parent := parent;
     rules := None;
     folder := folder;
     fullPath := match parent with
                 | Some p => fullPath p +:+ folder
                 | None => folder
                 end |}.

Fixpoint ignored (this : Context) (path : string) : bool :=
  match this with
  | mkContext parent rules folder _ =>
      if String.eqb path ".git" then false
      else if String.eqb path "node_modules" then false
      else if match rules with
              | Some r => ignore_test r path
              | None => false
              end
      then true
      else match parent with
           | None => false
           | Some p => ignored p (folder +:+ path)
           end
  end.

(** The first statement of [barrel]: load the rule file unless rules are
    already set.  An empty text is falsy and leaves the rules unset. *)
Definition load_rules (this : Context) : IO Context :=
  match rules this with
  | Some _ => mret this
  | None =>
      text ← WeakRead (fullPath this +:+ ".barrelignore");
      match text with
      | Some t =>
          if String.eqb t EmptyString then mret this
          else mret {| parent := parent this;
                       rules := Some (ignore_add t);
                       folder := folder this;
                       fullPath := fullPath this |}
      | None => mret this
      end
  end.

(** The body of the [for (const path of ...)] loop, over the names still
    to visit; [visit] is the recursive [ctx.barrel()]. *)
Fixpoint each (visit : Context -> IO bool) (this : Context)
    (names : list string) (includes : list Entry) : IO (list Entry) :=
  match names with
  | [] => mret includes
  | path :: rest =>
      if Js.startsWith path "." then each visit this rest includes
      else if String.eqb path "node_modules" then each visit this rest includes
      else if String.eqb path "mod.ts" then each visit this rest includes
      else
        stats ← lstat (fullPath this +:+ path);
        if isDirectory stats then
          let ctx := new_Context (path +:+ "/") (Some this) in
          entry ← visit ctx;
          each visit this rest
            (if entry : bool
             then includes ++ [mkEntry (Namespace path) (path +:+ "/mod.ts")]
             else includes)
        else if negb (isFile stats) then each visit this rest includes
        else if ignored this path then each visit this rest includes
        else each visit this rest (includes ++ [mkEntry (Namespace path) path])
  end.

(** [source += `export * as ${file.namespace} from './${file.path}';\n`]. *)
Definition emit (source : string) (file : Entry) : string :=
  source +:+ "export * as " +:+ namespace file +:+ " from './"
         +:+ path file +:+ "';" +:+ String "010" EmptyString.

(** [const includes = ...; for (const path of await readdir(...)) ...]:
    the entries collected for this directory. *)
Definition gather (visit : Context -> IO bool) (this : Context)
    : IO (list Entry) :=
  names ← readdir (fullPath this);
  each visit this names [].

(** The end of [barrel]: nothing to write, or render and write. *)
Definition flush (this : Context) (includes : list Entry) : IO bool :=
  if (Z.of_nat (List.length includes) <? 1)%Z then mret false
  else
    let source := fold_left emit includes EmptyString in
    writeFile (fullPath this +:+ "mod.ts") source;;
    mret true.

(** The statements of [barrel] after the rules are loaded. *)
Definition walk (visit : Context -> IO bool) (this : Context) : IO bool :=
  includes ← gather visit this;
  flush this includes.

(** [barrel]; [fuel] bounds the depth of the recursion.  The context with
    its rules loaded is the one the loop consults and the children get as
    parent. *)
Fixpoint barrel (fuel : nat) (this : Context) : IO bool :=
  match fuel with
  | O => timeout
  | S fuel' =>
      this' ← load_rules this;
      walk (barrel fuel') this'
  end.

(** The script: [const ctx = new Context('./'); await ctx.barrel()]. *)
Definition main (fuel : nat) : IO bool :=
  barrel fuel (new_Context "./" None).

End Walker.

(** A small engine for examples: a rule file lists paths, one per line,
    and a path is excluded when it is one of them. *)
Module ExactLines.

Fixpoint lines_from (cur : string) (s : string) : list string :=
  match s with
  | EmptyString => [cur]
  | String a r =>
      if Ascii.eqb a "010" then cur :: lines_from EmptyString r
      else lines_from (cur +:+ String a EmptyString) r
  end.

Definition test (ls : list string) (p : string) : bool :=
  existsb (String.eqb p) ls.

#[export] Instance engine : IgnoreEngine :=
  {| Ignore := list string;
     ignore_add := lines_from EmptyString;
     ignore_test := test |}.

End ExactLines.

(** ** Vocabulary of the statements *)

(** The names the loop passes over before any [lstat]. *)
Definition skipped (path : string) : bool :=
  Js.startsWith path "." || String.eqb path "node_modules"
  || String.eqb path "mod.ts".

(** One re-export statement, and the text of an aggregator file, as the
    design words them: one newline-terminated statement per entry, in
    order, and nothing else. *)
Definition statement (e : Entry) : string :=
  "export * as " +:+ namespace e +:+ " from './" +:+ path e +:+ "';"
  +:+ String "010" EmptyString.

Definition aggregator (entries : list Entry) : string :=
  String.concat EmptyString (map statement entries).

(** The regular file stored under a key, if there is one. *)
Definition file_at (fs : gmap string node) (k : string)
    : option (bool * string) :=
  match fs !! k with
  | Some (File r data) => Some (r, data)
  | _ => None
  end.

(** [Context] with another parent. *)
Definition reparent {engine : IgnoreEngine}
    (q : option Context) (c : Context) : Context :=
  {| parent := q; rules := rules c; folder := folder c; fullPath := fullPath c |}.


(** ** Vocabulary of the re-run argument *)

(** A name a directory listing can hold: not empty and without separator. *)
Definition name_ok (name : string) : bool :=
  negb (String.eqb name EmptyString) && negb (has_slash name).

Definition node_ok (nd : node) : Prop :=
  match nd with
  | Dir names => forallb name_ok names = true
  | _ => True
  end.

Definition listing_ok (fs : gmap string node) : Prop :=
  map_Forall (fun _ nd => node_ok nd) fs.

(** A path that ends with the separator, as every [fullPath] the walker
    builds from the root ["./"] does. *)
Definition ends_with_slash (p : string) : Prop :=
  exists d, p = d +:+ "/".

(** What the walker can observe of the node under a key.  It never looks
    at an aggregator file or at the name [mod.ts] in a listing: it can only
    tell whether the key of an aggregator is free to be written. *)
Inductive seen : Type :=
| SeenDir (names : list string)
| SeenOther
| SeenFile (readable : bool) (data : string)
| SeenNothing
| SeenAggregator.

Definition is_aggregator (k : string) : bool :=
  String.eqb (basename k) "mod.ts".

Definition input_name (name : string) : bool :=
  negb (String.eqb name "mod.ts").

Definition view (k : string) (o : option node) : seen :=
  match o with
  | Some (Dir names) => SeenDir (List.filter input_name names)
  | Some Other => SeenOther
  | Some (File r data) =>
      if is_aggregator k then SeenAggregator else SeenFile r data
  | None => if is_aggregator k then SeenAggregator else SeenNothing
  end.

Definition same_inputs (s1 s2 : gmap string node) : Prop :=
  forall k, view k (s1 !! k) = view k (s2 !! k).

(** What a run does to one key: it may put a text there, and it may list
    [mod.ts] in the directory stored there. *)
Record effect : Type := mkEffect { put : option string; add : bool }.

Definition apply_effect (e : effect) (o : option node) : option node :=
  match o with
  | Some (Dir names) => Some (Dir (if add e then link "mod.ts" names else names))
  | Some Other => Some Other
  | Some (File r data) =>
      Some (File r (match put e with Some d => d | None => data end))
  | None =>
      match put e with Some d => Some (File true d) | None => None end
  end.

(** Two runs, from [s1] to [s1'] and from [s2] to [s2'], that did the same
    thing to every key, and put texts under aggregator keys only. *)
Definition tracks (s1 s1' s2 s2' : gmap string node) : Prop :=
  forall k, exists e,
    (put e <> None -> is_aggregator k = true)
    /\ s1' !! k = apply_effect e (s1 !! k)
    /\ s2' !! k = apply_effect e (s2 !! k).


(** Doing [e1] and then [e2] to a key is one effect. *)
Definition then_effect (e1 e2 : effect) : effect :=
  {| put := match put e2 with Some d => Some d | None => put e1 end;
     add := add e1 || add e2 |}.

(** A visit whose completed runs are reproduced, effect for effect, from
    any file system offering the same inputs. *)
Definition reproducible {engine : IgnoreEngine}
    (visit : Context -> IO bool) : Prop :=
  forall (ctx : Context) (s1 s2 s1' : gmap string node) (b : bool),
    ends_with_slash (fullPath ctx) ->
    listing_ok s1 ->
    same_inputs s1 s2 ->
    visit ctx s1 = (Done b, s1') ->
    exists s2', visit ctx s2 = (Done b, s2') /\ tracks s1 s1' s2 s2'.


(** ** Vocabulary of the termination argument *)

(** Every directory of the file system has a key shorter than [bound]. *)
Definition shallow (bound : nat) (fs : gmap string node) : Prop :=
  forall k names, fs !! k = Some (Dir names) -> (String.length k < bound)%nat.

(** A later state of the file system has no directory the earlier lacked. *)
Definition no_new_dirs (fs fs' : gmap string node) : Prop :=
  forall k names', fs' !! k = Some (Dir names') ->
    exists names, fs !! k = Some (Dir names).


#[export] Instance node_ok_dec (nd : node) : Decision (node_ok nd).
Proof. destruct nd; simpl; apply _. Defined.

#[export] Instance listing_ok_dec (fs : gmap string node) : Decision (listing_ok fs).
Proof. unfold listing_ok. apply _. Defined.

(** ** Sample trees *)

Module Sample.

Import ExactLines.

(** A root with two files and a sub-directory holding one file. *)
Definition tree : gmap string node :=
  list_to_map
    [ ("."%string, Dir ["foo.ts"; "bar-baz.ts"; "qux"]%string);
      ("./foo.ts"%string, File true "export const foo = 1;");
      ("./bar-baz.ts"%string, File true "export const bar = 2;");
      ("./qux"%string, Dir ["a.ts"]%string);
      ("./qux/a.ts"%string, File true "export const a = 3;") ].

Definition qux_text : string :=
  "export * as A from './a.ts';" +:+ String "010" EmptyString.

Definition root_text : string :=
  "export * as Foo from './foo.ts';" +:+ String "010"
    ("export * as BarBaz from './bar-baz.ts';" +:+ String "010"
       ("export * as Qux from './qux/mod.ts';" +:+ String "010" EmptyString)).

(** [tree] once the sub-directory has been walked. *)
Definition tree_qux : gmap string node :=
  <["./qux/mod.ts"%string := File true qux_text]>
    (<["./qux"%string := Dir ["a.ts"; "mod.ts"]%string]> tree).

(** [tree] once the walk from the root is over. *)
Definition tree_done : gmap string node :=
  <["./mod.ts"%string := File true root_text]>
    (<["."%string := Dir ["foo.ts"; "bar-baz.ts"; "qux"; "mod.ts"]%string]>
       tree_qux).

Definition root : Context := new_Context "./" None.

Definition qux : Context := new_Context "qux/" (Some root).

(** A root whose rule file cannot be read. *)
Definition locked : gmap string node :=
  list_to_map
    [ ("."%string, Dir [".barrelignore"; "secret.ts"]%string);
      ("./.barrelignore"%string, File false "secret.ts");
      ("./secret.ts"%string, File true "export const s = 0;") ].

(** A root whose rule file excludes one of its two files. *)
Definition secretive : gmap string node :=
  list_to_map
    [ ("."%string, Dir [".barrelignore"; "secret.ts"; "public.ts"]%string);
      ("./.barrelignore"%string, File true "secret.ts");
      ("./secret.ts"%string, File true "export const s = 0;");
      ("./public.ts"%string, File true "export const p = 1;") ].

Definition secretive_done : gmap string node :=
  <["./mod.ts"%string :=
      File true ("export * as Public from './public.ts';"
                 +:+ String "010" EmptyString)]>
    (<["."%string :=
         Dir [".barrelignore"; "secret.ts"; "public.ts"; "mod.ts"]%string]>
       secretive).

(** A root whose rule file names its sub-directory. *)
Definition shadowed : gmap string node :=
  list_to_map
    [ ("."%string, Dir [".barrelignore"; "qux"]%string);
      ("./.barrelignore"%string, File true "qux");
      ("./qux"%string, Dir ["a.ts"]%string);
      ("./qux/a.ts"%string, File true "export const a = 3;") ].

Definition shadowed_done : gmap string node :=
  <["./mod.ts"%string :=
      File true ("export * as Qux from './qux/mod.ts';"
                 +:+ String "010" EmptyString)]>
    (<["."%string := Dir [".barrelignore"; "qux"; "mod.ts"]%string]>
       (<["./qux/mod.ts"%string := File true qux_text]>
          (<["./qux"%string := Dir ["a.ts"; "mod.ts"]%string]> shadowed))).

(** A root whose aggregator name is taken by a directory. *)
Definition blocked : gmap string node :=
  list_to_map
    [ ("."%string, Dir ["a.ts"; "mod.ts"]%string);
      ("./a.ts"%string, File true "export const a = 3;");
      ("./mod.ts"%string, Dir []) ].

(** A root with rules of its own, and a sub-directory context below it. *)
Definition guarded : Context :=
  {| parent := None;
     rules := Some (ignore_add "secret.ts");
     folder := "./";
     fullPath := "./" |}.

Definition lib : Context := new_Context "lib/" (Some guarded).

End Sample.


(** ** Vocabulary of what a walk keeps *)




(** ** Vocabulary of the loop's result *)

(** The entry staged for a listed name: a file under its own name, a
    directory under the path of its aggregator. *)
Definition stage (name : string) (directory : bool) : Entry :=
  mkEntry (Namespace name)
          (if directory then name +:+ "/mod.ts" else name).

(** A listed name the loop stages as a file: not skipped, a regular file,
    not excluded. *)
Definition eligible {engine : IgnoreEngine}
    (this : Context) (fs : gmap string node) (name : string) : bool :=
  negb (skipped name)
  && match fst (lstat (fullPath this +:+ name) fs) with
     | Done st => isFile st
     | _ => false
     end
  && negb (ignored this name).


(** ** Vocabulary of the cascade *)

Definition structural (p : string) : bool :=
  String.eqb p ".git" || String.eqb p "node_modules".

(** The rules a query visits on its way up, each with the path it is
    asked about. *)
Fixpoint lineage {engine : IgnoreEngine} (c : Context) (p : string)
    : list (option Ignore * string) :=
  match c with
  | mkContext parent rules folder _ =>
      (rules, p) :: match parent with
                    | None => []
                    | Some q => lineage q (folder +:+ p)
                    end
  end.

Definition matches {engine : IgnoreEngine}
    (asked : option Ignore * string) : bool :=
  match fst asked with
  | Some r => ignore_test r (snd asked)
  | None => false
  end.

(** Every context below the root has a folder name with a separator in
    it, as the folders [name + '/'] the walker makes have. *)
Fixpoint slashed {engine : IgnoreEngine} (c : Context) : bool :=
  match c with
  | mkContext parent _ folder _ =>
      match parent with
      | None => true
      | Some q => has_slash folder && slashed q
      end
  end.


(** * The helpers of [app/util]

    Numbers are modelled by [Z] where the code works on integers (array
    indices, character codes, integer arguments); the results are those of
    the code as long as every value stays a safe integer.  Strings are
    modelled by the list of their UTF-16 code units where the code reads
    them unit by unit. *)

(** ** [app/util/math.ts] *)

Module Math_ts.

Definition MAX_SAFE_INTEGER : Z := 2 ^ 53 - 1.

(** [x % y] on integers: the remainder has the sign of [x]. *)
Definition js_rem (x y : Z) : Z := Z.rem x y.

Definition AlignUpInteger (x multiple : Z) : Z :=
  if multiple =? 0 then x
  else
    let remainder := js_rem x multiple in
    if negb (remainder =? 0) then x + (multiple - remainder) else x.

Definition AlignDownInteger (x multiple : Z) : Z :=
  if multiple =? 0 then x
  else
    let remainder := js_rem x multiple in
    if negb (remainder =? 0) then x - remainder else x.

Section Arrays.

Context {T : Type} `{EqDecision T}.

(** The [while (i < sup.length && j < base.length)] loop; a lookup that
    answers [None] is an index past the end.  [==] on the elements is
    modelled by equality. *)
Fixpoint IsSortedSuperSet_loop (steps : nat) (sup base : list T)
    (i j : nat) : bool :=
  match steps with
  | O => bool_decide (length base <= j)%nat
  | S steps' =>
      match sup !! i, base !! j with
      | Some x, Some y =>
          if bool_decide (x = y)
          then IsSortedSuperSet_loop steps' sup base (S i) (S j)
          else IsSortedSuperSet_loop steps' sup base (S i) j
      | _, _ => bool_decide (length base <= j)%nat
      end
  end.

Definition IsSortedSuperSet (sup base : list T) : bool :=
  IsSortedSuperSet_loop (length sup) sup base 0 0.

Definition COMPARE_SETS_LOOKUP : list (option Z) :=
  [None; Some 1; Some (-1); Some 0].

Definition Number_of_bool (b : bool) : Z := if b then 1 else 0.

(** [v || null] for [v] a table entry or [undefined]: [null], [undefined]
    and [0] are falsy. *)
Definition or_null (v : option (option Z)) : option Z :=
  match v with
  | Some (Some z) => if z =? 0 then None else Some z
  | _ => None
  end.

(** The result is a number or [None] for [null]. *)
Definition CompareSortedSets (a b : list T) : option Z :=
  let A := IsSortedSuperSet a b in
  let B := IsSortedSuperSet b a in
  let idx := Z.lor (Number_of_bool A) (Z.shiftl (Number_of_bool B) 1) in
  or_null (COMPARE_SETS_LOOKUP !! Z.to_nat idx).

(** [arr[i]]: [None] is [undefined], the value of an index out of range. *)
Definition at_index (arr : list T) (i : Z) : option T :=
  if i <? 0 then None else arr !! Z.to_nat i.

(** The statements of [BinarySearchIndex] after its loop. *)
Definition BinarySearchIndex_end (arr : list T) (compare : option T -> Z)
    (s e : Z) : Z :=
  let cmp := compare (at_index arr s) in
  if cmp =? 0 then s
  else if negb (s =? e) then
    let cmp := compare (at_index arr e) in
    if cmp =? 0 then e else -1
  else -1.

(** The [while (s < e)] loop of [BinarySearchIndex].  [compare] receives
    [undefined] when the array is empty, hence its argument type. *)
Fixpoint BinarySearchIndex_loop (steps : nat) (arr : list T)
    (compare : option T -> Z) (s e : Z) : Z :=
  match steps with
  | O => BinarySearchIndex_end arr compare s e
  | S steps' =>
      if s <? e then
        let span := (e - s) / 2 in
        if span =? 0 then BinarySearchIndex_end arr compare s e
        else
          let m := s + span in
          let cmp := compare (at_index arr m) in
          if cmp =? 0 then m
          else if cmp <? 0 then BinarySearchIndex_loop steps' arr compare s m
          else BinarySearchIndex_loop steps' arr compare m e
      else BinarySearchIndex_end arr compare s e
  end.

Definition BinarySearchIndex (arr : list T) (compare : option T -> Z) : Z :=
  BinarySearchIndex_loop (length arr) arr compare 0 (Z.of_nat (length arr) - 1).

(** [None] is [null]; [Some None] is an [undefined] element. *)
Definition BinarySearch (arr : list T) (compare : option T -> Z)
    : option (option T) :=
  let i := BinarySearchIndex arr compare in
  if i =? -1 then None else Some (at_index arr i).

(** The greedy scan both index loops perform, on what is left of the two
    arrays. *)
Fixpoint greedy (sup base : list T) : bool :=
  match base with
  | [] => true
  | y :: base' =>
      match sup with
      | [] => false
      | x :: sup' =>
          if bool_decide (x = y) then greedy sup' base' else greedy sup' base
      end
  end.

End Arrays.

(** [ToInt32]: the wrap-around of [x | 0]. *)
Definition ToInt32 (z : Z) : Z := (z + 2 ^ 31) mod 2 ^ 32 - 2 ^ 31.

(** [x << n] for [0 <= n < 32]. *)
Definition shl (x n : Z) : Z := ToInt32 (ToInt32 x * 2 ^ n).

(** [QuickHash.push], on the [hash] field. *)
Definition QuickHash_push (hash val : Z) : Z :=
  let hash := shl hash 5 - hash + val in
  ToInt32 hash.

(** [Hash72.push], the override. *)
Definition Hash72_push (hash val : Z) : Z := js_rem (hash + val) 1296.

(** The method [string], which calls the [push] of the object it runs on,
    over the code units of [str]. *)
Definition string_with (push : Z -> Z -> Z) (str : list Z) (hash : Z) : Z :=
  fold_left push str hash.

(** [QuickHash.string(str)]: a fresh [QuickHash], [string], [result]. *)
Definition QuickHash_string (str : list Z) : Z :=
  string_with QuickHash_push str 0.

(** [const t = new Hash72(); t.string(str); t.result()]. *)
Definition Hash72_string (str : list Z) : Z :=
  string_with Hash72_push str 0.

(** The unbounded polynomial [s[0]*31^(n-1) + ... + s[n-1]]. *)
Definition polynomial31 (str : list Z) : Z :=
  fold_left (fun acc c => 31 * acc + c) str 0.

End Math_ts.


(** ** Strings as code units *)

Module Units.

(** The code units of a text written in ASCII. *)
Definition units (s : string) : list Z :=
  map (fun c => Z.of_nat (nat_of_ascii c)) (list_ascii_of_string s).

(** Whether [pivot] occurs in [str] at index [k]. *)
Definition occurs_at (str pivot : list Z) (k : nat) : bool :=
  bool_decide (take (length pivot) (drop k str) = pivot).

Fixpoint indexOf_from (steps : nat) (str pivot : list Z) (k : nat) : Z :=
  match steps with
  | O => -1
  | S steps' =>
      if occurs_at str pivot k then Z.of_nat k
      else indexOf_from steps' str pivot (S k)
  end.

(** [str.indexOf(pivot, position)]: the position is clamped into the
    string, the answer is the first occurrence from there on or [-1]. *)
Definition indexOf (str pivot : list Z) (position : Z) : Z :=
  let len := Z.of_nat (length str) in
  let pos := Z.to_nat (Z.min (Z.max position 0) len) in
  indexOf_from (S (length str) - pos) str pivot pos.

Fixpoint lastIndexOf_from (str pivot : list Z) (k : nat) : Z :=
  if occurs_at str pivot k then Z.of_nat k
  else match k with
       | O => -1
       | S k' => lastIndexOf_from str pivot k'
       end.

(** [str.lastIndexOf(pivot, position)]: the last occurrence that starts
    at the clamped position or before it, or [-1]. *)
Definition lastIndexOf (str pivot : list Z) (position : Z) : Z :=
  let len := Z.of_nat (length str) in
  lastIndexOf_from str pivot (Z.to_nat (Z.min (Z.max position 0) len)).

(** [str.slice(start, end)]: a negative index counts from the end. *)
Definition slice (str : list Z) (start stop : Z) : list Z :=
  let len := Z.of_nat (length str) in
  let rel x := if x <? 0 then Z.max (len + x) 0 else Z.min x len in
  let from := rel start in
  let to := rel stop in
  take (Z.to_nat (to - from)) (drop (Z.to_nat from) str).

(** [str.slice(start)]. *)
Definition slice_from (str : list Z) (start : Z) : list Z :=
  slice str start (Z.of_nat (length str)).

End Units.

(** ** [app/util/format/text.ts] *)

Module Text_ts.

Import Units.

Definition SQL_MUST_ESCAPE : list Z := [92; 95; 37].

Fixpoint DbSegmentMatching_loop (steps : nat) (str : list Z) (i : nat)
    (out : list Z) : list Z :=
  match steps with
  | O => out
  | S steps' =>
      match str !! i with
      | None => out
      | Some c =>
          let out :=
            if bool_decide (c ∈ SQL_MUST_ESCAPE) then out ++ [92] else out in
          DbSegmentMatching_loop steps' str (S i) (out ++ ([c] ++ [37]))
      end
  end.

Definition DbSegmentMatching (str : list Z) : list Z :=
  if bool_decide (str = []) then [37]
  else DbSegmentMatching_loop (length str) str 0 [37].

(** Reading a pattern back: an escaped unit stands for itself, a bare
    ['%'] for nothing. *)
Fixpoint unlike (pattern : list Z) : list Z :=
  match pattern with
  | [] => []
  | c :: rest =>
      if c =? 92 then
        match rest with
        | [] => []
        | d :: rest' => d :: unlike rest'
        end
      else if c =? 37 then unlike rest
      else c :: unlike rest
  end.

(** The [while (offset !== 0)] loop for a positive offset, [n] rounds to
    go. *)
Fixpoint CutStringIndex_forward (n : nat) (str pivot : list Z)
    (cursor : Z) : Z :=
  match n with
  | O => cursor - 1
  | S n' =>
      let i := indexOf str pivot cursor in
      if i =? -1 then Z.of_nat (length str)
      else CutStringIndex_forward n' str pivot (i + 1)
  end.

(** The loop for a negative offset. *)
Fixpoint CutStringIndex_backward (n : nat) (str pivot : list Z)
    (cursor : Z) : Z :=
  match n with
  | O => cursor + 1
  | S n' =>
      let i := lastIndexOf str pivot cursor in
      if i =? -1 then Z.of_nat (length str)
      else CutStringIndex_backward n' str pivot (i - 1)
  end.

Definition CutStringIndex (str pivot : list Z) (offset : Z) : Z :=
  if offset =? 0 then Z.of_nat (length str)
  else if 0 <? offset then
    CutStringIndex_forward (Z.to_nat offset) str pivot 0
  else if offset <? 0 then
    CutStringIndex_backward (Z.to_nat (- offset)) str pivot
      (Z.of_nat (length str))
  else Z.of_nat (length str).

Definition CutString (str pivot : list Z) (offset : Z)
    : list Z * list Z :=
  let idx := CutStringIndex str pivot offset in
  (slice str 0 idx, slice_from str (idx + Z.of_nat (length pivot))).

Definition is_capital (c : Z) : bool := (65 <=? c) && (c <=? 90).

Definition is_lower_case (c : Z) : bool := (97 <=? c) && (c <=? 122).

Fixpoint SpaceCamelCase_loop (steps : nat) (str : list Z) (i : nat)
    (out : list Z) : list Z :=
  match steps with
  | O => out
  | S steps' =>
      match str !! i with
      | None => out
      | Some curr =>
          let out :=
            if is_capital curr then
              match str !! (i - 1)%nat with
              | Some prev => if is_lower_case prev then out ++ [32] else out
              | None => out
              end
            else out in
          SpaceCamelCase_loop steps' str (S i) (out ++ [curr])
      end
  end.

(** [None] is [undefined], what [str[0]] is for the empty string. *)
Definition SpaceCamelCase (str : list Z) : option (list Z) :=
  match str !! 0%nat with
  | None => None
  | Some c => Some (SpaceCamelCase_loop (length str) str 1 [c])
  end.

(** The spacing, read from left to right with the unit before. *)
Fixpoint spaced (prev : Z) (rest : list Z) : list Z :=
  match rest with
  | [] => []
  | c :: rest' =>
      (if is_capital c && is_lower_case prev then [32] else [])
        ++ c :: spaced c rest'
  end.

Section Matching.

(** [c.toLowerCase()] of a one-unit string, a function of the host. *)
Context (toLowerCase : Z -> list Z).

Fixpoint FuzzyStringMatch_loop (steps : nat) (str search : list Z)
    (i cursor : nat) : bool :=
  match steps with
  | O => bool_decide (cursor = length search)
  | S steps' =>
      match str !! i, search !! cursor with
      | Some a, Some b =>
          FuzzyStringMatch_loop steps' str search (S i)
            (if bool_decide (toLowerCase a = toLowerCase b)
             then S cursor else cursor)
      | _, _ => bool_decide (cursor = length search)
      end
  end.

(** [str] is [None] for [null] and [undefined]. *)
Definition FuzzyStringMatch (str : option (list Z)) (search : list Z) : bool :=
  match str with
  | None => bool_decide (search = [])
  | Some str =>
      if bool_decide (str = []) then bool_decide (search = [])
      else FuzzyStringMatch_loop (length str) str search 0 0
  end.

Record Segment : Type := mkSegment { seg_match : bool; seg_str : list Z }.

(** [SegmentPush]: the last segment grows when it has the same flag. *)
Definition SegmentPush (segments : list Segment) (m : bool) (s : list Z)
    : list Segment :=
  match last segments with
  | Some l =>
      if Bool.eqb (seg_match l) m
      then removelast segments ++ [mkSegment m (seg_str l ++ s)]
      else segments ++ [mkSegment m s]
  | None => segments ++ [mkSegment m s]
  end.

(** The loop of [GetMatchingSegments]; it hands back the segments, [i]
    and [cursor]. *)
Fixpoint GetMatchingSegments_loop (steps : nat) (str search : list Z)
    (segments : list Segment) (i cursor : nat)
    : list Segment * nat * nat :=
  match steps with
  | O => (segments, i, cursor)
  | S steps' =>
      match str !! i, search !! cursor with
      | Some a, Some b =>
          if bool_decide (toLowerCase a = toLowerCase b) then
            GetMatchingSegments_loop steps' str search
              (SegmentPush segments true [a]) (S i) (S cursor)
          else
            GetMatchingSegments_loop steps' str search
              (SegmentPush segments false [a]) (S i) cursor
      | _, _ => (segments, i, cursor)
      end
  end.

Definition GetMatchingSegments (str search : list Z) (weak : bool)
    : list Segment :=
  if bool_decide (length search = 0%nat) then [mkSegment false str]
  else
    let '(segments, i, cursor) :=
      GetMatchingSegments_loop (length str) str search [] 0 0 in
    if negb (bool_decide (cursor = length search)) && negb weak then []
    else if bool_decide (i < length str)%nat
    then SegmentPush segments false (slice_from str (Z.of_nat i))
    else segments.

End Matching.

(** No two neighbours carry the same flag. *)
Fixpoint alternating (segments : list Segment) : Prop :=
  match segments with
  | [] => True
  | a :: rest =>
      match rest with
      | [] => True
      | b :: _ => seg_match a <> seg_match b
      end /\ alternating rest
  end.

End Text_ts.

(** ** [app/util/format/index.ts] *)

Module Format_ts.

Import Units.

(** The blanks [Number] reads as [0]: white space and line ends. *)
Definition blanks : list Z :=
  [9; 10; 11; 12; 13; 32; 160; 5760; 8192; 8193; 8194; 8195; 8196; 8197;
   8198; 8199; 8200; 8201; 8202; 8232; 8233; 8239; 8287; 12288; 65279].

(** [Number(x)] for a one-unit string; [None] is [NaN]. *)
Definition Number_unit (c : Z) : option Z :=
  if (48 <=? c) && (c <=? 57) then Some (c - 48)
  else if bool_decide (c ∈ blanks) then Some 0
  else None.

(** [x * y] and [x + y] with [NaN]. *)
Definition nan_mul (x y : option Z) : option Z :=
  match x, y with Some a, Some b => Some (a * b) | _, _ => None end.

Definition nan_add (x y : option Z) : option Z :=
  match x, y with Some a, Some b => Some (a + b) | _, _ => None end.

Fixpoint SSCCCheckDigit_loop (steps : nat) (digits : list (option Z))
    (i : nat) (sum : option Z) : option Z :=
  match steps with
  | O => sum
  | S steps' =>
      match digits !! i with
      | None => sum
      | Some d =>
          let j := (Z.of_nat (length digits) - Z.of_nat i - 1) in
          let mul := if Z.rem j 2 =? 0 then 3 else 1 in
          SSCCCheckDigit_loop steps' digits (S i)
            (nan_add sum (nan_mul d (Some mul)))
      end
  end.

(** [Math.ceil(sum / 10) * 10 - sum], the sums at hand being small
    integers. *)
Definition SSCCCheckDigit (sscc : list Z) : option Z :=
  let digits := map Number_unit (slice_from sscc (-17)) in
  match SSCCCheckDigit_loop (length digits) digits 0 (Some 0) with
  | None => None
  | Some sum =>
      let rounded := - ((- sum) / 10) * 10 in
      Some (rounded - sum)
  end.

(** The total the check digit completes: the digits weighted 3, 1, 3, ...
    from the right. *)
Fixpoint weighted_from_right (reversed : list Z) (three : bool) : Z :=
  match reversed with
  | [] => 0
  | d :: rest =>
      (if three then 3 else 1) * d + weighted_from_right rest (negb three)
  end.

Definition is_digit (c : Z) : bool := (48 <=? c) && (c <=? 57).

(** A [BufferSource]: an [ArrayBuffer], or a view of part of one. *)
Inductive BufferSource : Type :=
| ArrayBuffer (bytes : list Z)
| ArrayBufferView (buffer : list Z) (byteOffset byteLength : nat).

Definition byteLength_of (b : BufferSource) : nat :=
  match b with
  | ArrayBuffer bytes => length bytes
  | ArrayBufferView _ _ n => n
  end.

(** [new Uint8Array(buffer)] for an [ArrayBuffer] and
    [new Uint8Array(buffer.buffer)] for a view: the whole buffer. *)
Definition bufferArray_of (b : BufferSource) : list Z :=
  match b with
  | ArrayBuffer bytes => bytes
  | ArrayBufferView buffer _ _ => buffer
  end.

Fixpoint BufferStartsWith_loop (steps : nat) (bufferArray target : list Z)
    (i : nat) : bool :=
  match steps with
  | O => true
  | S steps' =>
      if bool_decide (i < length target)%nat then
        if negb (bool_decide (bufferArray !! i = target !! i)) then false
        else BufferStartsWith_loop steps' bufferArray target (S i)
      else true
  end.

Definition BufferStartsWith (buffer : BufferSource) (target : list Z) : bool :=
  if bool_decide (byteLength_of buffer < length target)%nat then false
  else BufferStartsWith_loop (length target) (bufferArray_of buffer) target 0.

Fixpoint BufferEndsWith_loop (steps : nat) (bufferArray target : list Z)
    (i : Z) : bool :=
  match steps with
  | O => true
  | S steps' =>
      if i <=? Z.of_nat (length target) then
        if negb (bool_decide
                   (Math_ts.at_index bufferArray
                      (Z.of_nat (length bufferArray) - i)
                    = Math_ts.at_index target (Z.of_nat (length target) - i)))
        then false
        else BufferEndsWith_loop steps' bufferArray target (i + 1)
      else true
  end.

Definition BufferEndsWith (buffer : BufferSource) (target : list Z) : bool :=
  if bool_decide (byteLength_of buffer < length target)%nat then false
  else BufferEndsWith_loop (length target) (bufferArray_of buffer) target 1.

End Format_ts.

(** ** [app/model/address/validate.ts] *)

Module Validate_ts.

Import Units Text_ts.

(** A value of type [unknown]: a string or something else. *)
Inductive unknown : Type :=
| NotAString
| AString (str : list Z).

(** [ValidateEmail]; [resolveMx] gives the number of mail servers of a
    domain, or [None] when the lookup rejects.  The answer [None] is
    [undefined]: no complaint. *)
Definition ValidateEmail (resolveMx : list Z -> option nat) (str : unknown)
    : option string :=
  match str with
  | NotAString => None
  | AString str =>
      if (320 <? Z.of_nat (length str)) then Some "Max length 320 characters"%string
      else
        let '(user, domain) := CutString str [64] 1 in
        if (Z.of_nat (length user) <? 1) then Some "Missing email username"%string
        else if (Z.of_nat (length domain) <? 1)
        then Some "Missing email domain name"%string
        else
          match resolveMx domain with
          | Some n =>
              if (Z.of_nat n <? 1) then Some "domain has no mail server"%string
              else None
          | None => Some "domain has no mail server"%string
          end
  end.

End Validate_ts.

(** ** [app/util/ui.ts] *)

Module Ui_ts.

(** [AutoFocusClaim]: the private field [#claimed]. *)
Record AutoFocusClaim : Type := mkClaim { claimed : bool }.

Definition new_AutoFocusClaim : AutoFocusClaim := mkClaim false.

(** [claim()]: the answer and the object after the call. *)
Definition claim (this : AutoFocusClaim) : bool * AutoFocusClaim :=
  if claimed this then (false, this)
  else (true, mkClaim true).

(** The answers of [n] calls in a row. *)
Fixpoint claims (n : nat) (this : AutoFocusClaim) : list bool :=
  match n with
  | O => []
  | S n' => let '(b, this') := claim this in b :: claims n' this'
  end.

End Ui_ts.


(** ** Vocabulary of the text helpers *)

(** What [DbSegmentMatching] appends for the units still to read. *)
Fixpoint like_units (str : list Z) : list Z :=
  match str with
  | [] => []
  | c :: rest =>
      (if bool_decide (c ∈ Text_ts.SQL_MUST_ESCAPE) then [92] else [])
        ++ [c; 37] ++ like_units rest
  end.


(** ** Sample inputs of the helpers *)

(** A [compare] that looks for 7: positive on smaller values (and on
    [undefined]), negative on greater ones. *)
Definition seven (o : option Z) : Z :=
  match o with Some v => Z.sgn (7 - v) | None => 1 end.

(** * Properties *)

Example Namespace_my_file : Namespace "my-file.ts" = "MyFile"%string.
Proof. reflexivity. Qed.

Example Namespace_dot_ts : Namespace ".ts" = ""%string.
Proof. reflexivity. Qed.

Example Namespace_xml : Namespace "XMLHttpRequest.ts" = "Xmlhttprequest"%string.
Proof. reflexivity. Qed.

(** ** The identifier deriver *)

Section Deriver.

Import Reference.

Lemma IsLetterNumber_alnum (c : ascii) : IsLetterNumber c = alnum c.
Proof. destruct c as [[] [] [] [] [] [] [] []]; reflexivity. Qed.

Lemma stem_no_dot (s : string) : has_dot s = false -> stem s = s.
Proof.
  induction s as [|a r IH]; simpl; [reflexivity|].
  intros H. apply orb_false_iff in H as [Ha Hr].
  rewrite Ha. simpl. now rewrite IH.
Qed.

Lemma stem_prefix (s : string) :
  String.substring 0 (String.length (stem s)) s = stem s.
Proof.
  induction s as [|a r IH]; simpl; [reflexivity|].
  destruct (Ascii.eqb a "." && negb (has_dot r)); simpl; [reflexivity|].
  now rewrite IH.
Qed.

Lemma lastIndexOf_from_stem (s : string) (i acc : Z) :
  Js.lastIndexOf_from s "." i acc =
  if has_dot s then i + Z.of_nat (String.length (stem s)) else acc.
Proof.
  revert i acc. induction s as [|a r IH]; intros i acc; simpl; [reflexivity|].
  rewrite IH.
  destruct (has_dot r) eqn:Hr; simpl.
  - rewrite orb_true_r, andb_false_r. simpl. lia.
  - rewrite orb_false_r, andb_true_r.
    destruct (Ascii.eqb a "."); simpl; [lia | reflexivity].
Qed.

Lemma strip_extension (s : string) :
  (if negb (Js.lastIndexOf s "." =? -1)
   then Js.slice0 s (Js.lastIndexOf s ".") else s) = stem s.
Proof.
  unfold Js.lastIndexOf, Js.slice0.
  rewrite lastIndexOf_from_stem.
  destruct (has_dot s) eqn:Hd.
  - replace (0 + Z.of_nat (String.length (stem s)) =? -1) with false
      by (symmetry; apply Z.eqb_neq; lia).
    simpl negb. cbv iota.
    rewrite Z.add_0_l, Nat2Z.id. apply stem_prefix.
  - simpl. now rewrite stem_no_dot.
Qed.

Lemma app_cons (b : ascii) (x y : string) :
  String b x +:+ y = String b (x +:+ y).
Proof. reflexivity. Qed.

Lemma get_app_here (pre : string) (a : ascii) (suf : string) :
  String.get (String.length pre) (pre +:+ String a suf) = Some a.
Proof. induction pre as [|b pre IH]; simpl; [reflexivity | exact IH]. Qed.

Lemma app_String_assoc (pre : string) (a : ascii) (suf : string) :
  pre +:+ String a suf = (pre +:+ String a EmptyString) +:+ suf.
Proof.
  induction pre as [|b pre IH]; [reflexivity|]. now rewrite !app_cons, IH.
Qed.

Lemma length_app_one (pre : string) (a : ascii) :
  String.length (pre +:+ String a EmptyString) = S (String.length pre).
Proof. induction pre as [|b pre IH]; simpl; [reflexivity | now rewrite IH]. Qed.

Lemma String_app_assoc (x y z : string) : (x +:+ y) +:+ z = x +:+ (y +:+ z).
Proof. induction x as [|b x IH]; [reflexivity | now rewrite !app_cons, IH]. Qed.

Lemma String_app_nil_r (x : string) : x +:+ EmptyString = x.
Proof. induction x as [|b x IH]; [reflexivity | now rewrite app_cons, IH]. Qed.

(** The index loop, started anywhere in the string, appends the scan of
    what is left. *)
Lemma Namespace_loop_scan (suf pre : string) (capital : bool) (out : string) :
  Namespace_loop (pre +:+ suf) (String.length suf) (String.length pre)
    capital out
  = out +:+ scan capital suf.
Proof.
  revert pre capital out.
  induction suf as [|a suf IH]; intros pre capital out; simpl.
  - now rewrite String_app_nil_r.
  - rewrite get_app_here, IsLetterNumber_alnum.
    rewrite (app_String_assoc pre a suf), <- (length_app_one pre a).
    destruct (alnum a); simpl.
    + destruct capital; rewrite IH; unfold Js.push;
        now rewrite String_app_assoc.
    + apply IH.
Qed.

Lemma Namespace_refines (s : string) : Namespace s = deriveIdentifier s.
Proof.
  unfold Namespace, deriveIdentifier. cbv zeta.
  rewrite (strip_extension s).
  destruct (stem s) as [|a r] eqn:Hs; [reflexivity|].
  replace (Js.length (String a r) <? 1) with false
    by (symmetry; apply Z.ltb_ge; unfold Js.length; simpl String.length; lia).
  simpl String.eqb. cbv iota.
  exact (Namespace_loop_scan (String a r) EmptyString true EmptyString).
Qed.

End Deriver.

Lemma alnum_AsciiAlnum (c : ascii) :
  Reference.alnum c = true ->
  AsciiAlnum (Js.toUpperCase c) /\ AsciiAlnum (Js.toLowerCase c).
Proof.
  destruct c as [[] [] [] [] [] [] [] []]; intros H;
    try discriminate H; vm_compute; intuition discriminate.
Qed.

Lemma scan_alnum (s : string) (start : bool) :
  Forall AsciiAlnum (list_ascii_of_string (Reference.scan start s)).
Proof.
  revert start. induction s as [|a r IH]; intros start; simpl.
  - constructor.
  - destruct (Reference.alnum a) eqn:Ha; [|apply IH].
    simpl. constructor; [|apply IH].
    destruct (alnum_AsciiAlnum a Ha). now destruct start.
Qed.

(** C4: on every filename the code's [Namespace] equals the reference
    algorithm of the design: cut at the last ['.'], return the empty string
    for an empty stem, otherwise scan the stem with the start-of-segment
    flag, dropping non-alphanumerics and casing the rest. *)
Theorem C4_Namespace_is_reference (filename : string) :
  Namespace filename = Reference.deriveIdentifier filename.
Proof. apply Namespace_refines. Qed.

(** C5 as stated fails: the identifier derived from ["a.b.ts"] is not ["A"]. *)
Lemma C5_not_A : Namespace "a.b.ts" <> "A"%string.
Proof. vm_compute. discriminate. Qed.

(** C5, amended: only the final extension is cut, the remaining ['.'] is a
    segment boundary, and the identifier derived from ["a.b.ts"] is ["AB"]. *)
Theorem C5_Namespace_a_b_ts : Namespace "a.b.ts" = "AB"%string.
Proof. reflexivity. Qed.

(** C10: every character of a derived identifier is an ASCII letter or
    digit, and yet the identifier may begin with a digit: ["2d.ts"] gives
    ["2d"]. *)
Theorem C10_Namespace_alnum_not_identifier :
  (forall str : string,
      Forall AsciiAlnum (list_ascii_of_string (Namespace str)))
  /\ Namespace "2d.ts" = "2d"%string
  /\ (exists rest : string,
         Namespace "2d.ts" = String "2" rest
         /\ 48 <= Js.charCodeAt "2" <= 57).
Proof.
  split; [|split].
  - intros str. rewrite Namespace_refines. unfold Reference.deriveIdentifier.
    destruct (String.eqb _ _); [constructor | apply scan_alnum].
  - reflexivity.
  - exists "d"%string. split; [reflexivity | vm_compute; split; discriminate].
Qed.

(** ** The ignore context *)

Section IgnoreContext.

Context {engine : IgnoreEngine}.

Lemma ignored_unfold (this : Context) (p : string) :
  ignored this p =
  if String.eqb p ".git" then false
  else if String.eqb p "node_modules" then false
  else if match rules this with
          | Some r => ignore_test r p
          | None => false
          end
  then true
  else match parent this with
       | None => false
       | Some q => ignored q (folder this +:+ p)
       end.
Proof. destruct this; reflexivity. Qed.

(** C6: whatever the rules and the parent chain, [ignored] answers false
    for the names [.git] and [node_modules]. *)
Theorem C6_structural_names_never_ignored (c : Context) :
  ignored c ".git" = false /\ ignored c "node_modules" = false.
Proof. split; rewrite ignored_unfold; reflexivity. Qed.

(** C1: for a path other than the two structural names, a local match
    answers true whatever the parent is; without a local match a root
    context answers false, and a child context answers what its parent
    answers on [folder + path]. *)
Theorem C1_ignored_resolution (c : Context) (p : string) :
  p <> ".git"%string -> p <> "node_modules"%string ->
  (forall r, rules c = Some r -> ignore_test r p = true ->
     ignored c p = true /\ forall q, ignored (reparent q c) p = true)
  /\ ((forall r, rules c = Some r -> ignore_test r p = false) ->
      parent c = None -> ignored c p = false)
  /\ ((forall r, rules c = Some r -> ignore_test r p = false) ->
      forall q, parent c = Some q -> ignored c p = ignored q (folder c +:+ p))
  /\ (forall name, folder (new_Context (name +:+ "/") (Some c)) = name +:+ "/").
Proof.
  intros Hgit Hnm.
  apply String.eqb_neq in Hgit. apply String.eqb_neq in Hnm.
  split; [|split; [|split]].
  - intros r Hr Ht. split.
    + rewrite ignored_unfold, Hgit, Hnm, Hr, Ht. reflexivity.
    + intros q. rewrite ignored_unfold, Hgit, Hnm. simpl. now rewrite Hr, Ht.
  - intros Hno Hpar. rewrite ignored_unfold, Hgit, Hnm, Hpar.
    destruct (rules c) as [r|]; [now rewrite (Hno r eq_refl) | reflexivity].
  - intros Hno q Hpar. rewrite ignored_unfold, Hgit, Hnm, Hpar.
    destruct (rules c) as [r|]; [now rewrite (Hno r eq_refl) | reflexivity].
  - reflexivity.
Qed.

(** The walker names a sub-directory's context with a trailing separator. *)
Lemma child_folder (this : Context) (name : string) :
  folder (new_Context (name +:+ "/") (Some this)) = name +:+ "/"
  /\ fullPath (new_Context (name +:+ "/") (Some this))
     = fullPath this +:+ name +:+ "/"
  /\ parent (new_Context (name +:+ "/") (Some this)) = Some this
  /\ rules (new_Context (name +:+ "/") (Some this)) = None.
Proof. repeat split. Qed.

End IgnoreContext.

(** ** Running in [IO] *)

Section Monad.

Context {A B : Type}.

Lemma bind_unfold (m : IO A) (f : A -> IO B) (fs : gmap string node) :
  (m ≫= f) fs =
  match m fs with
  | (Done a, fs') => f a fs'
  | (Throw e, fs') => (Throw e, fs')
  | (Timeout, fs') => (Timeout, fs')
  end.
Proof. reflexivity. Qed.

Lemma bind_Done (m : IO A) (f : A -> IO B) (fs fs1 : gmap string node) (a : A) :
  m fs = (Done a, fs1) -> (m ≫= f) fs = f a fs1.
Proof. intros H. now rewrite bind_unfold, H. Qed.

Lemma bind_Done_inv (m : IO A) (f : A -> IO B) (fs fs' : gmap string node)
    (b : B) :
  (m ≫= f) fs = (Done b, fs') ->
  exists a fs1, m fs = (Done a, fs1) /\ f a fs1 = (Done b, fs').
Proof.
  rewrite bind_unfold. destruct (m fs) as [[a|e|] fs1]; intros H;
    [eauto | discriminate | discriminate].
Qed.

End Monad.

(** ** Paths *)

Lemma key_app_fixed (p q : string) :
  q <> EmptyString -> key q = q -> key (p +:+ q) = p +:+ q.
Proof.
  intros Hq Hk. induction p as [|b p IH]; [exact Hk|].
  rewrite app_cons. simpl key. rewrite IH.
  destruct (p +:+ q) eqn:E; [|reflexivity].
  destruct p; [simpl in E; contradiction | discriminate E].
Qed.

Lemma key_mod_ts (p : string) : key (p +:+ "mod.ts") = p +:+ "mod.ts".
Proof. apply key_app_fixed; [discriminate | reflexivity]. Qed.

Lemma key_barrelignore (p : string) :
  key (p +:+ ".barrelignore") = p +:+ ".barrelignore".
Proof. apply key_app_fixed; [discriminate | reflexivity]. Qed.

(** ** Rendering *)

Lemma concat_cons (x : string) (xs : list string) :
  String.concat EmptyString (x :: xs) = x +:+ String.concat EmptyString xs.
Proof. destruct xs; simpl; [now rewrite String_app_nil_r | reflexivity]. Qed.

Lemma emit_statement (source : string) (file : Entry) :
  emit source file = source +:+ statement file.
Proof. reflexivity. Qed.

Lemma fold_emit (includes : list Entry) (source : string) :
  fold_left emit includes source = source +:+ aggregator includes.
Proof.
  revert source. induction includes as [|e l IH]; intros source.
  - simpl. now rewrite String_app_nil_r.
  - simpl fold_left. rewrite IH, emit_statement. unfold aggregator.
    simpl map. now rewrite concat_cons, String_app_assoc.
Qed.

(** ** The walker, one call at a time *)

Section WalkerSteps.

Context {engine : IgnoreEngine}.

Lemma WeakRead_total (p : string) (fs : gmap string node) :
  exists text, WeakRead p fs = (Done text, fs).
Proof.
  unfold WeakRead, try_or_null, readFile.
  destruct (fs !! key p) as [[[] d|l|]|]; eauto.
Qed.

Lemma WeakRead_failed (p : string) (fs : gmap string node) (e : errno) :
  fst (readFile p fs) = Throw e -> WeakRead p fs = (Done None, fs).
Proof.
  unfold WeakRead, try_or_null, readFile.
  destruct (fs !! key p) as [[[] d|l|]|]; simpl; intros H;
    try reflexivity; discriminate H.
Qed.

(** Loading the rules never throws, leaves the file system alone, and
    changes nothing of the context but its rules. *)
Lemma load_rules_total (this : Context) (fs : gmap string node) :
  exists this', load_rules this fs = (Done this', fs)
    /\ parent this' = parent this /\ folder this' = folder this
    /\ fullPath this' = fullPath this.
Proof.
  unfold load_rules. destruct (rules this) as [r|].
  - exists this. repeat split.
  - destruct (WeakRead_total (fullPath this +:+ ".barrelignore") fs) as [t Ht].
    rewrite (bind_Done _ _ _ _ _ Ht).
    destruct t as [t|]; [|exists this; repeat split].
    destruct (String.eqb t EmptyString); eexists; repeat split.
Qed.

Lemma each_cons (visit : Context -> IO bool) (this : Context)
    (path : string) (rest : list string) (includes : list Entry) :
  each visit this (path :: rest) includes =
  if skipped path then each visit this rest includes
  else
    stats ← lstat (fullPath this +:+ path);
    if isDirectory stats then
      entry ← visit (new_Context (path +:+ "/") (Some this));
      each visit this rest
        (if entry : bool
         then includes ++ [mkEntry (Namespace path) (path +:+ "/mod.ts")]
         else includes)
    else if negb (isFile stats) then each visit this rest includes
    else if ignored this path then each visit this rest includes
    else each visit this rest (includes ++ [mkEntry (Namespace path) path]).
Proof.
  unfold skipped. simpl each.
  destruct (Js.startsWith path "."); [reflexivity|].
  destruct (String.eqb path "node_modules"); [reflexivity|].
  destruct (String.eqb path "mod.ts"); reflexivity.
Qed.

Lemma barrel_S (fuel : nat) (this : Context) :
  barrel (S fuel) this = (this' ← load_rules this; walk (barrel fuel) this').
Proof. reflexivity. Qed.

(** C2: a listed name that is not skipped and that [lstat] reports as a
    directory is entered without any [ignored] query on it: the loop runs
    [barrel] on the child context, and the directory is staged, with the
    path of its aggregator and the identifier of its name, exactly when
    that call answers true. *)
Theorem C2_directories_always_entered (fuel : nat) (this : Context)
    (path : string) (rest : list string) (includes : list Entry)
    (fs : gmap string node) :
  skipped path = false ->
  lstat (fullPath this +:+ path) fs = (Done StDir, fs) ->
  let child := new_Context (path +:+ "/") (Some this) in
  let staged := mkEntry (Namespace path) (path +:+ "/mod.ts") in
  each (barrel fuel) this (path :: rest) includes fs
  = (entry ← barrel fuel child;
     each (barrel fuel) this rest
       (if entry : bool then includes ++ [staged] else includes)) fs
  /\ (forall fs1, barrel fuel child fs = (Done true, fs1) ->
        each (barrel fuel) this (path :: rest) includes fs
        = each (barrel fuel) this rest (includes ++ [staged]) fs1)
  /\ (forall fs1, barrel fuel child fs = (Done false, fs1) ->
        each (barrel fuel) this (path :: rest) includes fs
        = each (barrel fuel) this rest includes fs1).
Proof.
  intros Hskip Hstat child staged.
  assert (Hstep : each (barrel fuel) this (path :: rest) includes fs
    = (entry ← barrel fuel child;
       each (barrel fuel) this rest
         (if entry : bool then includes ++ [staged] else includes)) fs).
  { rewrite each_cons, Hskip. now rewrite (bind_Done _ _ _ _ _ Hstat). }
  split; [exact Hstep|].
  split; intros fs1 Hrun; rewrite Hstep; now rewrite (bind_Done _ _ _ _ _ Hrun).
Qed.

Lemma flush_empty (this : Context) (fs : gmap string node) :
  flush this [] fs = (Done false, fs).
Proof. reflexivity. Qed.

Lemma flush_nonempty (this : Context) (includes : list Entry)
    (fs : gmap string node) :
  includes <> [] ->
  flush this includes fs
  = (writeFile (fullPath this +:+ "mod.ts") (fold_left emit includes EmptyString);;
     mret true) fs.
Proof.
  intros Hne. unfold flush.
  destruct includes as [|e l]; [contradiction|].
  replace (Z.of_nat (List.length (e :: l)) <? 1) with false; [reflexivity|].
  symmetry. apply Z.ltb_ge. simpl List.length. lia.
Qed.

(** A completed call decomposes into its stages. *)
Lemma barrel_Done_inv (fuel : nat) (this : Context) (fs fs' : gmap string node)
    (b : bool) :
  barrel (S fuel) this fs = (Done b, fs') ->
  exists this' includes fs1,
    load_rules this fs = (Done this', fs)
    /\ fullPath this' = fullPath this
    /\ gather (barrel fuel) this' fs = (Done includes, fs1)
    /\ flush this' includes fs1 = (Done b, fs').
Proof.
  rewrite barrel_S. intros H.
  destruct (load_rules_total this fs) as (this' & Hl & _ & _ & Hp).
  rewrite (bind_Done _ _ _ _ _ Hl) in H. unfold walk in H.
  apply bind_Done_inv in H as (includes & fs1 & Hg & Hf).
  exists this', includes, fs1. auto.
Qed.

Lemma writeFile_Done_inv (p data : string) (fs fs' : gmap string node) :
  writeFile p data fs = (Done tt, fs') ->
  exists names,
    fs !! dirname (key p) = Some (Dir names)
    /\ fs' = <[key p := written data (fs !! key p)]>
               (<[dirname (key p) := Dir (link (basename (key p)) names)]> fs)
    /\ exists r, file_at fs' (key p) = Some (r, data).
Proof.
  unfold writeFile. cbv zeta.
  destruct (fs !! dirname (key p)) as [[r d|names|]|] eqn:Hd; try discriminate.
  destruct (fs !! key p) as [[r d|l|]|] eqn:Hk; try discriminate;
    intros H; injection H as <-; exists names; (split; [reflexivity|]);
    (split; [reflexivity|]); unfold file_at; rewrite lookup_insert_eq;
    simpl; eauto.
Qed.

(** C7: the text [barrel] writes is the concatenation, in collection
    order, of one newline-terminated statement per entry and nothing else:
    after a call that answered true the aggregator file of the directory
    holds exactly that text for the entries collected. *)
Theorem C7_aggregator_text (fuel : nat) (this : Context)
    (fs fs' : gmap string node) :
  barrel (S fuel) this fs = (Done true, fs') ->
  exists this' includes fs1 r,
    load_rules this fs = (Done this', fs)
    /\ gather (barrel fuel) this' fs = (Done includes, fs1)
    /\ fold_left emit includes EmptyString = aggregator includes
    /\ writeFile (fullPath this +:+ "mod.ts") (aggregator includes) fs1
       = (Done tt, fs')
    /\ file_at fs' (fullPath this +:+ "mod.ts") = Some (r, aggregator includes).
Proof.
  intros H. apply barrel_Done_inv in H as (this' & includes & fs1 & Hl & Hp & Hg & Hf).
  destruct includes as [|e l]; [rewrite flush_empty in Hf; discriminate Hf|].
  rewrite flush_nonempty in Hf by discriminate.
  apply bind_Done_inv in Hf as ([] & fs2 & Hw & Hr). injection Hr as <-.
  rewrite Hp, fold_emit in Hw. change (EmptyString +:+ ?x) with x in Hw.
  destruct (writeFile_Done_inv _ _ _ _ Hw) as (names & _ & _ & r & Hr).
  rewrite key_mod_ts in Hr.
  exists this', (e :: l), fs1, r. repeat split; try assumption.
  now rewrite fold_emit.
Qed.

(** C8: when the read of the rule file fails, for whatever reason, the
    failure is swallowed: loading the rules returns the context as it was,
    with its rules unset and the file system untouched, and [barrel] is the
    walk of a directory without local rules. *)
Theorem C8_unreadable_rules_are_no_rules (fuel : nat) (this : Context)
    (fs : gmap string node) (e : errno) :
  rules this = None ->
  fst (readFile (fullPath this +:+ ".barrelignore") fs) = Throw e ->
  WeakRead (fullPath this +:+ ".barrelignore") fs = (Done None, fs)
  /\ load_rules this fs = (Done this, fs)
  /\ barrel (S fuel) this fs = walk (barrel fuel) this fs.
Proof.
  intros Hr He. pose proof (WeakRead_failed _ _ _ He) as Hw.
  assert (Hl : load_rules this fs = (Done this, fs)).
  { unfold load_rules. rewrite Hr. now rewrite (bind_Done _ _ _ _ _ Hw). }
  split; [exact Hw|]. split; [exact Hl|].
  rewrite barrel_S. now rewrite (bind_Done _ _ _ _ _ Hl).
Qed.

End WalkerSteps.

(** ** Paths under a directory *)

Lemma slash_app (d x : string) : (d +:+ "/") +:+ x = d +:+ String "/" x.
Proof. now rewrite String_app_assoc. Qed.

Lemma has_slash_under (d n : string) : has_slash (d +:+ String "/" n) = true.
Proof.
  induction d as [|b d IH]; [reflexivity|].
  rewrite app_cons. simpl. rewrite IH. apply orb_true_r.
Qed.

Lemma key_dir (d : string) : key (d +:+ "/") = d.
Proof.
  induction d as [|b d IH]; [reflexivity|].
  rewrite app_cons. simpl key. rewrite IH.
  destruct (d +:+ "/") eqn:E; [|reflexivity].
  destruct d; discriminate E.
Qed.

Lemma key_slash_free (q : string) : has_slash q = false -> key q = q.
Proof.
  induction q as [|a r IH]; [reflexivity|]. simpl.
  intros H. apply orb_false_iff in H as [Ha Hr].
  rewrite Ha, (IH Hr). now destruct r.
Qed.

Lemma name_ok_inv (n : string) :
  name_ok n = true -> n <> EmptyString /\ has_slash n = false.
Proof.
  unfold name_ok. intros H. apply andb_true_iff in H as [H1 H2].
  apply negb_true_iff in H1, H2. split; [|exact H2].
  now apply String.eqb_neq.
Qed.

Lemma key_under (d n : string) :
  name_ok n = true -> key (d +:+ String "/" n) = d +:+ String "/" n.
Proof.
  intros H. apply name_ok_inv in H as [Hne Hs].
  apply key_app_fixed; [discriminate|].
  simpl key. rewrite (key_slash_free n Hs). now destruct n.
Qed.

Lemma basename_slash_free (n : string) : has_slash n = false -> basename n = n.
Proof. destruct n as [|a r]; [reflexivity|]. simpl. now intros ->. Qed.

Lemma basename_under (d n : string) :
  has_slash n = false -> basename (d +:+ String "/" n) = n.
Proof.
  intros Hn. induction d as [|b d IH].
  - change (EmptyString +:+ String "/" n) with (String "/" n).
    simpl. now apply basename_slash_free.
  - rewrite app_cons.
    change (basename (String b (d +:+ String "/" n)))
      with (if has_slash (String b (d +:+ String "/" n))
            then basename (d +:+ String "/" n)
            else String b (d +:+ String "/" n)).
    simpl has_slash. rewrite has_slash_under, orb_true_r. exact IH.
Qed.

Lemma dirname_under (d n : string) :
  has_slash n = false -> dirname (d +:+ String "/" n) = d.
Proof.
  intros Hn. unfold dirname. rewrite has_slash_under.
  induction d as [|b d IH].
  - change (EmptyString +:+ String "/" n) with (String "/" n).
    simpl. now rewrite Hn.
  - rewrite app_cons. simpl. rewrite has_slash_under, andb_false_r.
    now rewrite IH.
Qed.

(** ** Effects and observations *)

Lemma link_filter (names : list string) :
  List.filter input_name (link "mod.ts" names) = List.filter input_name names.
Proof.
  unfold link. destruct (bool_decide _); [reflexivity|].
  rewrite List.filter_app. simpl. apply app_nil_r.
Qed.

Lemma link_idem (name : string) (names : list string) :
  link name (link name names) = link name names.
Proof.
  unfold link. destruct (bool_decide (name ∈ names)) eqn:E.
  - now rewrite E.
  - rewrite bool_decide_eq_true_2; [reflexivity|].
    apply elem_of_app. right. now apply list_elem_of_singleton.
Qed.

Lemma link_ok (names : list string) :
  forallb name_ok names = true -> forallb name_ok (link "mod.ts" names) = true.
Proof.
  intros H. unfold link. destruct (bool_decide _); [exact H|].
  rewrite forallb_app, H. reflexivity.
Qed.

Lemma apply_effect_idem (e : effect) (o : option node) :
  apply_effect e (apply_effect e o) = apply_effect e o.
Proof.
  destruct e as [[d|] []], o as [[r x|names|]|]; simpl;
    rewrite ?link_idem; reflexivity.
Qed.

Lemma apply_then_effect (e1 e2 : effect) (o : option node) :
  apply_effect e2 (apply_effect e1 o) = apply_effect (then_effect e1 e2) o.
Proof.
  destruct e1 as [[d1|] []], e2 as [[d2|] []], o as [[r x|names|]|]; simpl;
    rewrite ?link_idem; reflexivity.
Qed.

Lemma view_apply (k : string) (e : effect) (o1 o2 : option node) :
  view k o1 = view k o2 ->
  view k (apply_effect e o1) = view k (apply_effect e o2).
Proof.
  destruct e as [[d|] []], o1 as [[r1 x1|l1|]|], o2 as [[r2 x2|l2|]|];
    simpl; destruct (is_aggregator k); simpl; rewrite ?link_filter;
    intros H; try discriminate H; try reflexivity; try exact H;
    injection H as -> ->; reflexivity.
Qed.

Lemma view_apply_self (k : string) (e : effect) (o : option node) :
  (put e <> None -> is_aggregator k = true) ->
  view k (apply_effect e o) = view k o.
Proof.
  intros Hok. destruct e as [[d|] []], o as [[r x|l|]|]; simpl in *;
    rewrite ?link_filter; try reflexivity;
    rewrite Hok by discriminate; reflexivity.
Qed.

Lemma tracks_refl (s1 s2 : gmap string node) : tracks s1 s1 s2 s2.
Proof.
  intros k. exists (mkEffect None false). split; [intros H; now elim H|].
  split; [destruct (s1 !! k) as [[]|] | destruct (s2 !! k) as [[]|]]; reflexivity.
Qed.

Lemma tracks_trans (s1 t1 u1 s2 t2 u2 : gmap string node) :
  tracks s1 t1 s2 t2 -> tracks t1 u1 t2 u2 -> tracks s1 u1 s2 u2.
Proof.
  intros H1 H2 k.
  destruct (H1 k) as (e1 & Hok1 & Ha1 & Hb1).
  destruct (H2 k) as (e2 & Hok2 & Ha2 & Hb2).
  exists (then_effect e1 e2). split; [|split].
  - unfold then_effect. simpl. destruct (put e2); [intros _; now apply Hok2|].
    exact Hok1.
  - now rewrite Ha2, Ha1, apply_then_effect.
  - now rewrite Hb2, Hb1, apply_then_effect.
Qed.

Lemma tracks_same_inputs (s1 s1' s2 s2' : gmap string node) :
  same_inputs s1 s2 -> tracks s1 s1' s2 s2' -> same_inputs s1' s2'.
Proof.
  intros Hs Ht k. destruct (Ht k) as (e & _ & -> & ->).
  apply view_apply, Hs.
Qed.

Lemma tracks_inputs_kept (s1 s1' s2 s2' : gmap string node) :
  tracks s1 s1' s2 s2' -> same_inputs s1 s1'.
Proof.
  intros Ht k. destruct (Ht k) as (e & Hok & -> & _).
  symmetry. now apply view_apply_self.
Qed.

Lemma tracks_listing_ok (s1 s1' s2 s2' : gmap string node) :
  listing_ok s1 -> tracks s1 s1' s2 s2' -> listing_ok s1'.
Proof.
  intros Hok Ht k nd Hk. destruct (Ht k) as (e & _ & Ha & _).
  rewrite Ha in Hk. destruct (s1 !! k) as [[r x|names|]|] eqn:E.
  - injection Hk as <-. exact I.
  - injection Hk as <-. simpl. pose proof (Hok k _ E) as Hn. simpl in Hn.
    destruct (add e); [now apply link_ok | exact Hn].
  - injection Hk as <-. exact I.
  - simpl in Hk. destruct (put e); [|discriminate Hk].
    injection Hk as <-. exact I.
Qed.

(** A run that is tracked by a run from its own result changes nothing. *)
Lemma tracks_fixed (s s' s'' : gmap string node) :
  tracks s s' s' s'' -> s'' = s'.
Proof.
  intros Ht. apply map_eq. intros k.
  destruct (Ht k) as (e & _ & Ha & Hb).
  now rewrite Hb, Ha, apply_effect_idem.
Qed.

(** ** Reading from file systems with the same inputs *)

Lemma view_Dir_inv (k : string) (o : option node) (l : list string) :
  view k o = SeenDir l ->
  exists names, o = Some (Dir names) /\ List.filter input_name names = l.
Proof.
  destruct o as [[r x|names|]|]; simpl; destruct (is_aggregator k);
    intros H; try discriminate H; injection H as <-; eauto.
Qed.

Lemma readdir_same (s1 s2 s1' : gmap string node) (p : string)
    (names1 : list string) :
  same_inputs s1 s2 ->
  readdir p s1 = (Done names1, s1') ->
  s1' = s1
  /\ s1 !! key p = Some (Dir names1)
  /\ exists names2,
       readdir p s2 = (Done names2, s2)
       /\ List.filter input_name names2 = List.filter input_name names1.
Proof.
  intros Hs. unfold readdir. specialize (Hs (key p)).
  destruct (s1 !! key p) as [[r x|l|]|] eqn:E; intros H; try discriminate H.
  injection H as <- <-. split; [reflexivity|]. split; [reflexivity|].
  simpl in Hs. symmetry in Hs. apply view_Dir_inv in Hs as (names2 & -> & Hf).
  eauto.
Qed.

Lemma lstat_same (s1 s2 s1' : gmap string node) (p : string) (st : Stats) :
  same_inputs s1 s2 ->
  is_aggregator (key p) = false ->
  lstat p s1 = (Done st, s1') ->
  s1' = s1 /\ lstat p s2 = (Done st, s2).
Proof.
  intros Hs Hk. unfold lstat. specialize (Hs (key p)). unfold view in Hs.
  rewrite Hk in Hs.
  destruct (s1 !! key p) as [[r x|l|]|], (s2 !! key p) as [[r' x'|l'|]|];
    try discriminate Hs; intros H; try discriminate H;
    injection H as <- <-; auto.
Qed.

Lemma readFile_same (s1 s2 : gmap string node) (p : string) :
  same_inputs s1 s2 ->
  is_aggregator (key p) = false ->
  readFile p s1 = (fst (readFile p s1), s1)
  /\ readFile p s2 = (fst (readFile p s1), s2).
Proof.
  intros Hs Hk. unfold readFile. specialize (Hs (key p)). unfold view in Hs.
  rewrite Hk in Hs.
  destruct (s1 !! key p) as [[[] x|l|]|], (s2 !! key p) as [[[] x'|l'|]|];
    try discriminate Hs; try (injection Hs as ->); auto.
Qed.

Lemma writeFile_same (s1 s2 s1' : gmap string node) (dir data : string) :
  same_inputs s1 s2 ->
  ends_with_slash dir ->
  writeFile (dir +:+ "mod.ts") data s1 = (Done tt, s1') ->
  exists s2',
    writeFile (dir +:+ "mod.ts") data s2 = (Done tt, s2')
    /\ tracks s1 s1' s2 s2'.
Proof.
  intros Hs [d ->]. rewrite slash_app.
  set (k := d +:+ String "/" "mod.ts").
  assert (Hkey : key k = k) by (now apply key_under).
  assert (Hdir : dirname k = d) by (now apply dirname_under).
  assert (Hbase : basename k = "mod.ts"%string) by (now apply basename_under).
  assert (Hagg : is_aggregator k = true) by (unfold is_aggregator; now rewrite Hbase).
  unfold writeFile. cbv zeta. rewrite Hkey, Hdir, Hbase.
  pose proof (Hs d) as Hd. pose proof (Hs k) as Hk.
  destruct (s1 !! d) as [[r x|names1|]|] eqn:E1; try discriminate.
  simpl in Hd. symmetry in Hd. apply view_Dir_inv in Hd as (names2 & E2 & _).
  rewrite E2. unfold view in Hk. rewrite Hagg in Hk.
  assert (Htr : forall o1 o2,
    (o1 = None \/ exists r x, o1 = Some (File r x)) ->
    (o2 = None \/ exists r x, o2 = Some (File r x)) ->
    s1 !! k = o1 -> s2 !! k = o2 ->
    tracks s1 (<[k := written data o1]> (<[d := Dir (link "mod.ts" names1)]> s1))
           s2 (<[k := written data o2]> (<[d := Dir (link "mod.ts" names2)]> s2))).
  { intros o1 o2 Ho1 Ho2 Hl1 Hl2 x.
    assert (Hne : d <> k).
    { intros Heq. rewrite <- Heq, E1 in Hl1.
      destruct Ho1 as [->|(r1 & x1 & ->)]; discriminate Hl1. }
    destruct (decide (x = k)) as [->|Hxk].
    - exists (mkEffect (Some data) false). split; [auto|].
      rewrite !lookup_insert_eq, Hl1, Hl2.
      destruct Ho1 as [->|(r1 & x1 & ->)], Ho2 as [->|(r2 & x2 & ->)];
        split; reflexivity.
    - rewrite !(lookup_insert_ne _ k x) by congruence.
      destruct (decide (x = d)) as [->|Hxd].
      + exists (mkEffect None true). split; [intros H; now elim H|].
        rewrite !lookup_insert_eq, E1, E2. split; reflexivity.
      + exists (mkEffect None false). split; [intros H; now elim H|].
        rewrite !lookup_insert_ne by congruence.
        split; [destruct (s1 !! x) as [[]|] | destruct (s2 !! x) as [[]|]];
          reflexivity. }
  destruct (s1 !! k) as [[r1 x1|l1|]|] eqn:K1; try discriminate;
    destruct (s2 !! k) as [[r2 x2|l2|]|] eqn:K2; try discriminate Hk;
    intros H; injection H as <-; eexists; (split; [reflexivity|]).
  - apply (Htr (Some (File r1 x1)) (Some (File r2 x2))); eauto.
  - apply (Htr (Some (File r1 x1)) None); eauto.
  - apply (Htr None (Some (File r2 x2))); eauto.
  - apply (Htr None None); eauto.
Qed.

(** ** Running the walker again *)

Section Rerun.

Context {engine : IgnoreEngine}.

Lemma under_not_aggregator (d n : string) :
  name_ok n = true -> input_name n = true ->
  key (d +:+ String "/" n) = d +:+ String "/" n
  /\ is_aggregator (d +:+ String "/" n) = false.
Proof.
  intros Hok Hin. split; [now apply key_under|].
  unfold is_aggregator. apply name_ok_inv in Hok as [_ Hs].
  rewrite (basename_under d n Hs). now apply negb_true_iff in Hin.
Qed.

Lemma load_rules_same (this this' : Context) (s1 s2 s1' : gmap string node) :
  same_inputs s1 s2 ->
  ends_with_slash (fullPath this) ->
  load_rules this s1 = (Done this', s1') ->
  s1' = s1 /\ load_rules this s2 = (Done this', s2).
Proof.
  intros Hs [d Hd]. unfold load_rules.
  destruct (rules this) as [r|]; [intros H; injection H as <- <-; auto|].
  rewrite !bind_unfold, Hd, slash_app. unfold WeakRead, try_or_null.
  destruct (under_not_aggregator d ".barrelignore" eq_refl eq_refl) as [Hk Ha].
  rewrite <- Hk in Ha.
  destruct (readFile_same s1 s2 _ Hs Ha) as [E1 E2].
  destruct (fst (readFile (d +:+ String "/" ".barrelignore") s1)) as [t|e|];
    rewrite E1, E2; simpl; [| |discriminate].
  - destruct (String.eqb t EmptyString); intros H; injection H as <- <-; auto.
  - intros H; injection H as <- <-; auto.
Qed.

(** The loop passes over [mod.ts], so it runs the same on a listing with
    that name taken out. *)
Lemma each_filter (visit : Context -> IO bool) (this : Context)
    (names : list string) (includes : list Entry) (fs : gmap string node) :
  each visit this names includes fs
  = each visit this (List.filter input_name names) includes fs.
Proof.
  revert includes fs. induction names as [|n rest IH]; intros includes fs;
    [reflexivity|].
  simpl List.filter. destruct (input_name n) eqn:Hn.
  - rewrite !each_cons. destruct (skipped n); [apply IH|].
    rewrite !bind_unfold.
    destruct (lstat (fullPath this +:+ n) fs) as [[st|e|] fs1];
      [|reflexivity|reflexivity].
    destruct (isDirectory st).
    + rewrite !bind_unfold.
      destruct (visit _ fs1) as [[b|e|] fs2]; [apply IH|reflexivity|reflexivity].
    + destruct (negb (isFile st)); [apply IH|].
      destruct (ignored this n); apply IH.
  - rewrite each_cons. unfold skipped.
    apply negb_false_iff in Hn. rewrite Hn, !orb_true_r. apply IH.
Qed.

Lemma skipped_input_name (n : string) : skipped n = false -> input_name n = true.
Proof.
  unfold skipped, input_name. intros H.
  apply orb_false_iff in H as [_ H]. now rewrite H.
Qed.

Lemma each_same (visit : Context -> IO bool) (this : Context) :
  reproducible visit ->
  ends_with_slash (fullPath this) ->
  forall (names : list string) (includes includes' : list Entry)
         (s1 s2 s1' : gmap string node),
    forallb name_ok names = true ->
    listing_ok s1 ->
    same_inputs s1 s2 ->
    each visit this names includes s1 = (Done includes', s1') ->
    exists s2',
      each visit this names includes s2 = (Done includes', s2')
      /\ tracks s1 s1' s2 s2'.
Proof.
  intros Hvisit Hthis. destruct Hthis as [d Hd].
  induction names as [|n rest IH]; intros includes includes' s1 s2 s1' Hok Hl Hs.
  - simpl. intros H. injection H as <- <-. exists s2. split; [reflexivity|].
    apply tracks_refl.
  - simpl in Hok. apply andb_true_iff in Hok as [Hn Hrest].
    rewrite !each_cons. destruct (skipped n) eqn:Hskip; [now apply IH|].
    destruct (under_not_aggregator d n Hn (skipped_input_name n Hskip))
      as [Hk Ha].
    rewrite <- Hk in Ha. rewrite <- slash_app, <- Hd in Ha.
    intros H. apply bind_Done_inv in H as (st & t1 & Hst & H).
    destruct (lstat_same s1 s2 t1 _ st Hs Ha Hst) as [-> Hst2].
    rewrite (bind_Done _ _ _ _ _ Hst2).
    destruct (isDirectory st).
    + apply bind_Done_inv in H as (b & u1 & Hb & H).
      assert (Hchild : ends_with_slash
                (fullPath (new_Context (n +:+ "/") (Some this)))).
      { exists (fullPath this +:+ n). simpl. now rewrite String_app_assoc. }
      destruct (Hvisit _ s1 s2 u1 b Hchild Hl Hs Hb) as (u2 & Hb2 & Ht).
      rewrite (bind_Done _ _ _ _ _ Hb2).
      destruct (IH _ _ u1 u2 s1' Hrest (tracks_listing_ok _ _ _ _ Hl Ht)
                  (tracks_same_inputs _ _ _ _ Hs Ht) H) as (s2' & H2 & Ht').
      exists s2'. split; [exact H2|]. exact (tracks_trans _ _ _ _ _ _ Ht Ht').
    + destruct (negb (isFile st)); [now apply IH|].
      destruct (ignored this n); now apply IH.
Qed.

Lemma forallb_filter_ok (names : list string) :
  forallb name_ok names = true ->
  forallb name_ok (List.filter input_name names) = true.
Proof.
  induction names as [|n rest IH]; [reflexivity|]. simpl.
  intros H. apply andb_true_iff in H as [Hn Hr].
  destruct (input_name n); simpl; [rewrite Hn|]; now apply IH.
Qed.

Lemma gather_same (visit : Context -> IO bool) (this : Context)
    (includes : list Entry) (s1 s2 s1' : gmap string node) :
  reproducible visit ->
  ends_with_slash (fullPath this) ->
  listing_ok s1 ->
  same_inputs s1 s2 ->
  gather visit this s1 = (Done includes, s1') ->
  exists s2',
    gather visit this s2 = (Done includes, s2') /\ tracks s1 s1' s2 s2'.
Proof.
  intros Hvisit Hthis Hl Hs H. unfold gather in *.
  apply bind_Done_inv in H as (names1 & t1 & Hr & H).
  destruct (readdir_same _ _ _ _ _ Hs Hr) as (-> & Hdir & names2 & Hr2 & Hf).
  rewrite (bind_Done _ _ _ _ _ Hr2).
  rewrite each_filter in H. rewrite each_filter, Hf.
  apply (each_same visit this Hvisit Hthis _ _ _ s1 s2 s1'); try assumption.
  apply forallb_filter_ok. exact (Hl _ _ Hdir).
Qed.

Lemma barrel_reproducible (fuel : nat) : reproducible (barrel fuel).
Proof.
  induction fuel as [|fuel IH]; intros ctx s1 s2 s1' b Hctx Hl Hs H;
    [discriminate H|].
  rewrite barrel_S in *.
  apply bind_Done_inv in H as (this' & t1 & Hload & H).
  destruct (load_rules_total ctx s1) as (this0 & Hload0 & _ & _ & Hp).
  rewrite Hload0 in Hload. injection Hload as <- <-.
  destruct (load_rules_same _ _ _ _ _ Hs Hctx Hload0) as [_ Hload2].
  rewrite (bind_Done _ _ _ _ _ Hload2).
  unfold walk in *.
  apply bind_Done_inv in H as (includes & u1 & Hg & H).
  rewrite <- Hp in Hctx.
  destruct (gather_same _ _ _ _ _ _ IH Hctx Hl Hs Hg) as (u2 & Hg2 & Ht).
  rewrite (bind_Done _ _ _ _ _ Hg2).
  destruct includes as [|e l].
  - rewrite flush_empty in *. injection H as <- <-. eauto.
  - rewrite flush_nonempty in * by discriminate.
    apply bind_Done_inv in H as ([] & v1 & Hw & H). injection H as <- <-.
    destruct (writeFile_same _ _ _ _ _ (tracks_same_inputs _ _ _ _ Hs Ht) Hctx Hw)
      as (v2 & Hw2 & Ht').
    exists v2. rewrite (bind_Done _ _ _ _ _ Hw2). split; [reflexivity|].
    exact (tracks_trans _ _ _ _ _ _ Ht Ht').
Qed.

Lemma root_ends_with_slash : ends_with_slash (fullPath (new_Context "./" None)).
Proof. now exists "."%string. Qed.

(** C9: on a file system whose listings hold proper names, a completed walk
    from the root, run again on the file system it left, completes with the
    same answer and leaves that file system as it is: every aggregator file
    is written again with the same bytes, and the aggregator files of the
    first run, now listed, change nothing. *)
Theorem C9_rerun_is_identity (fuel : nat) (fs fs' : gmap string node) (b : bool) :
  listing_ok fs ->
  main fuel fs = (Done b, fs') ->
  main fuel fs' = (Done b, fs').
Proof.
  unfold main. intros Hl H.
  assert (Hrefl : same_inputs fs fs) by (intros k; reflexivity).
  destruct (barrel_reproducible fuel _ fs fs fs' b root_ends_with_slash
              Hl Hrefl H) as (fs0 & H0 & Ht0).
  rewrite H in H0. injection H0 as <-.
  pose proof (tracks_inputs_kept _ _ _ _ Ht0) as Hkept.
  destruct (barrel_reproducible fuel _ fs fs' fs' b root_ends_with_slash
              Hl Hkept H) as (fs2 & H2 & Ht2).
  now rewrite (tracks_fixed _ _ _ Ht2) in H2.
Qed.

End Rerun.

(** ** Termination: the recursion budget *)

Section Budget.

Context {engine : IgnoreEngine}.

Lemma length_app (x y : string) :
  String.length (x +:+ y) = (String.length x + String.length y)%nat.
Proof. induction x as [|b x IH]; [reflexivity|]. rewrite app_cons. simpl. now rewrite IH. Qed.

Lemma key_length (p : string) : (String.length p <= S (String.length (key p)))%nat.
Proof.
  induction p as [|a r IH]; [simpl; lia|].
  simpl key. destruct r as [|b r'].
  - destruct (Ascii.eqb a "/"); simpl; lia.
  - simpl String.length in *. lia.
Qed.

Lemma no_new_dirs_refl (fs : gmap string node) : no_new_dirs fs fs.
Proof. intros k names H. eauto. Qed.

Lemma no_new_dirs_trans (fs1 fs2 fs3 : gmap string node) :
  no_new_dirs fs1 fs2 -> no_new_dirs fs2 fs3 -> no_new_dirs fs1 fs3.
Proof. intros H1 H2 k names H. destruct (H2 _ _ H) as [l Hl]. eauto. Qed.

Lemma shallow_no_new_dirs (bound : nat) (fs fs' : gmap string node) :
  shallow bound fs -> no_new_dirs fs fs' -> shallow bound fs'.
Proof. intros Hs Hn k names H. destruct (Hn _ _ H) as [l Hl]. eauto. Qed.

Lemma shallow_exists (fs : gmap string node) : exists bound, shallow bound fs.
Proof.
  induction fs as [|k nd fs Hk _ IH] using map_first_key_ind.
  - exists O. intros k names H. rewrite lookup_empty in H. discriminate H.
  - destruct IH as [bound Hb]. exists (S (Nat.max bound (String.length k))).
    intros k' names H. destruct (decide (k = k')) as [->|Hne].
    + lia.
    + rewrite lookup_insert_ne in H by exact Hne.
      specialize (Hb _ _ H). lia.
Qed.

Lemma readFile_state (p : string) (fs : gmap string node) :
  snd (readFile p fs) = fs.
Proof. unfold readFile. now destruct (fs !! key p) as [[[] x|l|]|]. Qed.

Lemma readdir_state (p : string) (fs : gmap string node) :
  snd (readdir p fs) = fs.
Proof. unfold readdir. now destruct (fs !! key p) as [[r x|l|]|]. Qed.

Lemma lstat_state (p : string) (fs : gmap string node) :
  snd (lstat p fs) = fs.
Proof. unfold lstat. now destruct (fs !! key p) as [[r x|l|]|]. Qed.

Lemma lstat_not_Timeout (p : string) (fs : gmap string node) :
  fst (lstat p fs) <> Timeout.
Proof. unfold lstat. now destruct (fs !! key p) as [[r x|l|]|]. Qed.

Lemma writeFile_not_Timeout (p data : string) (fs : gmap string node) :
  fst (writeFile p data fs) <> Timeout.
Proof.
  unfold writeFile. cbv zeta.
  destruct (fs !! dirname (key p)) as [[r x|l|]|]; try discriminate.
  destruct (fs !! key p) as [[r x|l'|]|]; discriminate.
Qed.

Lemma writeFile_no_new_dirs (p data : string) (fs : gmap string node) :
  no_new_dirs fs (snd (writeFile p data fs)).
Proof.
  unfold writeFile. cbv zeta.
  destruct (fs !! dirname (key p)) as [[r x|l|]|] eqn:Hd;
    try apply no_new_dirs_refl.
  assert (Hins : forall o,
    (o = None \/ exists r x, o = Some (File r x)) ->
    no_new_dirs fs
      (<[key p := written data o]>
         (<[dirname (key p) := Dir (link (basename (key p)) l)]> fs))).
  { intros o Ho k names' H.
    destruct (decide (key p = k)) as [<-|Hne].
    - rewrite lookup_insert_eq in H.
      destruct Ho as [->|(r & x & ->)]; discriminate H.
    - rewrite lookup_insert_ne in H by exact Hne.
      destruct (decide (dirname (key p) = k)) as [<-|Hne'].
      + eauto.
      + rewrite lookup_insert_ne in H by exact Hne'. eauto. }
  destruct (fs !! key p) as [[r x|l'|]|].
  - exact (Hins (Some (File r x)) (or_intror (ex_intro _ r (ex_intro _ x eq_refl)))).
  - apply no_new_dirs_refl.
  - apply no_new_dirs_refl.
  - exact (Hins None (or_introl eq_refl)).
Qed.

Lemma load_rules_not_Timeout (this : Context) (fs : gmap string node) :
  fst (load_rules this fs) <> Timeout /\ snd (load_rules this fs) = fs.
Proof.
  destruct (load_rules_total this fs) as (this' & -> & _). split; [discriminate|reflexivity].
Qed.

Lemma each_no_new_dirs (visit : Context -> IO bool) (this : Context) :
  (forall ctx fs, no_new_dirs fs (snd (visit ctx fs))) ->
  forall names includes fs,
    no_new_dirs fs (snd (each visit this names includes fs)).
Proof.
  intros Hv. induction names as [|n rest IH]; intros includes fs.
  - apply no_new_dirs_refl.
  - rewrite each_cons. destruct (skipped n); [apply IH|].
    rewrite bind_unfold. pose proof (lstat_state (fullPath this +:+ n) fs) as Hst.
    destruct (lstat (fullPath this +:+ n) fs) as [[st|e|] fs1]; simpl in Hst;
      subst fs1; try apply no_new_dirs_refl.
    destruct (isDirectory st).
    + rewrite bind_unfold.
      pose proof (Hv (new_Context (n +:+ "/") (Some this)) fs) as Hc.
      destruct (visit _ fs) as [[b|e|] fs2]; simpl in Hc; try exact Hc.
      exact (no_new_dirs_trans _ _ _ Hc (IH _ _)).
    + destruct (negb (isFile st)); [apply IH|].
      destruct (ignored this n); apply IH.
Qed.

Lemma barrel_no_new_dirs (fuel : nat) (this : Context) (fs : gmap string node) :
  no_new_dirs fs (snd (barrel fuel this fs)).
Proof.
  revert this fs. induction fuel as [|fuel IH]; intros this fs;
    [apply no_new_dirs_refl|].
  rewrite barrel_S, bind_unfold.
  destruct (load_rules_total this fs) as (this' & -> & _).
  unfold walk, gather. rewrite !bind_unfold.
  pose proof (readdir_state (fullPath this') fs) as Hst.
  destruct (readdir (fullPath this') fs) as [[names|e|] fs1]; simpl in Hst;
    subst fs1; try apply no_new_dirs_refl.
  pose proof (each_no_new_dirs (barrel fuel) this' IH names [] fs) as He.
  destruct (each (barrel fuel) this' names [] fs) as [[includes|e|] fs2];
    simpl in He; try exact He.
  unfold flush. destruct (Z.of_nat (List.length includes) <? 1); [exact He|].
  rewrite bind_unfold.
  pose proof (writeFile_no_new_dirs (fullPath this' +:+ "mod.ts")
                (fold_left emit includes EmptyString) fs2) as Hw.
  destruct (writeFile _ _ fs2) as [[[]|e|] fs3]; simpl in Hw;
    exact (no_new_dirs_trans _ _ _ He Hw).
Qed.

Lemma each_not_Timeout (bound : nat) (visit : Context -> IO bool)
    (this : Context) :
  (forall ctx fs, no_new_dirs fs (snd (visit ctx fs))) ->
  (forall n fs, shallow bound fs ->
     fst (visit (new_Context (n +:+ "/") (Some this)) fs) <> Timeout) ->
  forall names includes fs,
    shallow bound fs ->
    fst (each visit this names includes fs) <> Timeout.
Proof.
  intros Hnew Hv. induction names as [|n rest IH]; intros includes fs Hs.
  - discriminate.
  - rewrite each_cons. destruct (skipped n); [now apply IH|].
    rewrite bind_unfold. pose proof (lstat_state (fullPath this +:+ n) fs) as Hst.
    pose proof (lstat_not_Timeout (fullPath this +:+ n) fs) as Hnt.
    destruct (lstat (fullPath this +:+ n) fs) as [[st|e|] fs1]; simpl in Hst, Hnt;
      subst fs1; [|discriminate|contradiction].
    destruct (isDirectory st).
    + rewrite bind_unfold.
      pose proof (Hv n fs Hs) as Hc.
      pose proof (Hnew (new_Context (n +:+ "/") (Some this)) fs) as Hd.
      destruct (visit _ fs) as [[b|e|] fs2]; simpl in Hc, Hd;
        [|discriminate|contradiction].
      apply IH. exact (shallow_no_new_dirs _ _ _ Hs Hd).
    + destruct (negb (isFile st)); [now apply IH|].
      destruct (ignored this n); now apply IH.
Qed.

(** A budget that covers the longest directory key is enough. *)
Lemma barrel_budget (bound : nat) (fuel : nat) :
  forall (this : Context) (fs : gmap string node),
    shallow bound fs ->
    (bound + 1 <= String.length (fullPath this) + fuel)%nat ->
    fst (barrel (S fuel) this fs) <> Timeout.
Proof.
  induction fuel as [|fuel IH]; intros this fs Hs Hlen;
    rewrite barrel_S, bind_unfold;
    destruct (load_rules_total this fs) as (this' & -> & _ & _ & Hp);
    rewrite <- Hp in Hlen;
    unfold walk, gather; rewrite !bind_unfold;
    pose proof (readdir_state (fullPath this') fs) as Hst;
    unfold readdir in *;
    destruct (fs !! key (fullPath this')) as [[r x|names|]|] eqn:Hk;
    try discriminate.
  - specialize (Hs _ _ Hk). pose proof (key_length (fullPath this')). lia.
  - specialize (Hs _ _ Hk) as Hkl. pose proof (key_length (fullPath this')) as Hkey.
    assert (He : fst (each (barrel (S fuel)) this' names [] fs) <> Timeout).
    { apply (each_not_Timeout bound); [apply barrel_no_new_dirs| |exact Hs].
      intros n fs0 Hs0. apply IH; [exact Hs0|].
      change (fullPath (new_Context (n +:+ "/") (Some this')))
        with (fullPath this' +:+ (n +:+ "/")).
      rewrite !length_app. simpl String.length. lia. }
    destruct (each (barrel (S fuel)) this' names [] fs) as [[includes|e|] fs2];
      simpl in He; [|discriminate|contradiction].
    unfold flush. destruct (Z.of_nat (List.length includes) <? 1); [discriminate|].
    rewrite bind_unfold.
    pose proof (writeFile_not_Timeout (fullPath this' +:+ "mod.ts")
                  (fold_left emit includes EmptyString) fs2) as Hw.
    destruct (writeFile _ _ fs2) as [[[]|e|] fs3]; simpl in Hw;
      [discriminate|discriminate|contradiction].
Qed.

Lemma each_more_fuel (visit visit' : Context -> IO bool) (this : Context) :
  (forall ctx fs r fs', visit ctx fs = (r, fs') -> r <> Timeout ->
     visit' ctx fs = (r, fs')) ->
  forall names includes fs r fs',
    each visit this names includes fs = (r, fs') -> r <> Timeout ->
    each visit' this names includes fs = (r, fs').
Proof.
  intros Hv. induction names as [|n rest IH]; intros includes fs r fs' H Hr.
  - exact H.
  - rewrite each_cons in *. destruct (skipped n); [now apply IH|].
    rewrite bind_unfold in *.
    destruct (lstat (fullPath this +:+ n) fs) as [[st|e|] fs1]; try exact H.
    destruct (isDirectory st).
    + rewrite bind_unfold in *.
      destruct (visit (new_Context (n +:+ "/") (Some this)) fs1)
        as [[b|e|] fs2] eqn:Hc.
      * rewrite (Hv _ _ _ _ Hc) by discriminate. now apply IH.
      * rewrite (Hv _ _ _ _ Hc) by discriminate. exact H.
      * injection H as <- <-. contradiction.
    + destruct (negb (isFile st)); [now apply IH|].
      destruct (ignored this n); now apply IH.
Qed.

(** An outcome other than [Timeout] does not depend on the budget left. *)
Lemma barrel_more_fuel (fuel : nat) :
  forall (this : Context) (fs : gmap string node) (r : outcome bool)
         (fs' : gmap string node),
    barrel fuel this fs = (r, fs') -> r <> Timeout ->
    barrel (S fuel) this fs = (r, fs').
Proof.
  induction fuel as [|fuel IH]; intros this fs r fs' H Hr.
  - injection H as <- <-. contradiction.
  - rewrite barrel_S in H. rewrite (barrel_S (S fuel)).
    rewrite bind_unfold in *.
    destruct (load_rules this fs) as [[this'|e|] fs1]; try exact H.
    unfold walk, gather in *. rewrite !bind_unfold in *.
    destruct (readdir (fullPath this') fs1) as [[names|e|] fs2]; try exact H.
    destruct (each (barrel fuel) this' names [] fs2) as [[includes|e|] fs3] eqn:He.
    + rewrite (each_more_fuel _ _ _ IH _ _ _ _ _ He) by discriminate. exact H.
    + rewrite (each_more_fuel _ _ _ IH _ _ _ _ _ He) by discriminate. exact H.
    + injection H as <- <-. contradiction.
Qed.

Lemma barrel_fuel_le (fuel fuel' : nat) (this : Context)
    (fs fs' : gmap string node) (r : outcome bool) :
  (fuel <= fuel')%nat ->
  barrel fuel this fs = (r, fs') -> r <> Timeout ->
  barrel fuel' this fs = (r, fs').
Proof.
  intros Hle H Hr. induction Hle as [|m Hle IH]; [exact H|].
  now apply barrel_more_fuel.
Qed.

(** [barrel] terminates: from some budget on, every budget yields the same
    outcome, a value or a thrown error. *)
Theorem barrel_total (this : Context) (fs : gmap string node) :
  exists (fuel : nat) (r : outcome bool) (fs' : gmap string node),
    r <> Timeout /\
    forall fuel', (fuel <= fuel')%nat -> barrel fuel' this fs = (r, fs').
Proof.
  destruct (shallow_exists fs) as [bound Hb].
  pose proof (barrel_budget bound (bound + 1) this fs Hb ltac:(lia)) as Hnt.
  destruct (barrel (S (bound + 1)) this fs) as [r fs'] eqn:E.
  exists (S (bound + 1)), r, fs'. split; [exact Hnt|].
  intros fuel' Hle. exact (barrel_fuel_le _ _ _ _ _ _ Hle E Hnt).
Qed.

End Budget.

(** ** What a call leaves alone *)

Section Frame.

Context {engine : IgnoreEngine}.

Lemma writeFile_file_at (p data : string) (fs : gmap string node) (k : string) :
  k <> key p -> file_at (snd (writeFile p data fs)) k = file_at fs k.
Proof.
  intros Hne. unfold writeFile. cbv zeta.
  destruct (fs !! dirname (key p)) as [[r x|l|]|] eqn:Hd; try reflexivity.
  assert (Hins : forall nd,
    file_at (<[key p := nd]>
               (<[dirname (key p) := Dir (link (basename (key p)) l)]> fs)) k
    = file_at fs k).
  { intros nd. unfold file_at. rewrite lookup_insert_ne by congruence.
    destruct (decide (dirname (key p) = k)) as [<-|Hne'].
    - now rewrite lookup_insert_eq, Hd.
    - now rewrite lookup_insert_ne by exact Hne'. }
  destruct (fs !! key p) as [[r x|l'|]|]; try reflexivity; apply Hins.
Qed.

Lemma each_frame (visit : Context -> IO bool) (this : Context) (k : string) :
  (forall ctx fs,
     (forall X, k <> fullPath ctx +:+ X +:+ "mod.ts") ->
     file_at (snd (visit ctx fs)) k = file_at fs k) ->
  (forall X, X <> EmptyString -> k <> fullPath this +:+ X +:+ "mod.ts") ->
  forall names includes fs,
    file_at (snd (each visit this names includes fs)) k = file_at fs k.
Proof.
  intros Hv Hk. induction names as [|n rest IH]; intros includes fs;
    [reflexivity|].
  rewrite each_cons. destruct (skipped n); [apply IH|].
  rewrite bind_unfold. pose proof (lstat_state (fullPath this +:+ n) fs) as Hst.
  destruct (lstat (fullPath this +:+ n) fs) as [[st|e|] fs1]; simpl in Hst;
    subst fs1; try reflexivity.
  destruct (isDirectory st).
  - rewrite bind_unfold.
    assert (Hc : file_at (snd (visit (new_Context (n +:+ "/") (Some this)) fs)) k
                 = file_at fs k).
    { apply Hv. intros X.
      change (fullPath (new_Context (n +:+ "/") (Some this)))
        with (fullPath this +:+ (n +:+ "/")).
      replace ((fullPath this +:+ (n +:+ "/")) +:+ X +:+ "mod.ts")
        with (fullPath this +:+ (n +:+ "/" +:+ X) +:+ "mod.ts")
        by (now rewrite !String_app_assoc).
      apply Hk. intros E. apply (f_equal String.length) in E.
      rewrite !length_app in E. simpl in E. lia. }
    destruct (visit _ fs) as [[b|e|] fs2]; simpl in Hc; try exact Hc.
    now rewrite IH.
  - destruct (negb (isFile st)); [apply IH|].
    destruct (ignored this n); apply IH.
Qed.

(** A call writes files only under keys made of the path of its directory,
    a path below it, and [mod.ts]. *)
Lemma barrel_frame (fuel : nat) :
  forall (this : Context) (fs : gmap string node) (k : string),
    (forall X, k <> fullPath this +:+ X +:+ "mod.ts") ->
    file_at (snd (barrel fuel this fs)) k = file_at fs k.
Proof.
  induction fuel as [|fuel IH]; intros this fs k Hk; [reflexivity|].
  rewrite barrel_S, bind_unfold.
  destruct (load_rules_total this fs) as (this' & -> & _ & _ & Hp).
  rewrite <- Hp in Hk.
  unfold walk, gather. rewrite !bind_unfold.
  pose proof (readdir_state (fullPath this') fs) as Hst.
  destruct (readdir (fullPath this') fs) as [[names|e|] fs1]; simpl in Hst;
    subst fs1; try reflexivity.
  assert (He : file_at (snd (each (barrel fuel) this' names [] fs)) k
               = file_at fs k).
  { apply each_frame; [intros ctx fs0; apply IH|]. intros X _. apply Hk. }
  destruct (each (barrel fuel) this' names [] fs) as [[includes|e|] fs2];
    simpl in He; try exact He.
  unfold flush. destruct (Z.of_nat (List.length includes) <? 1); [exact He|].
  rewrite bind_unfold.
  assert (Hw : file_at (snd (writeFile (fullPath this' +:+ "mod.ts")
                               (fold_left emit includes EmptyString) fs2)) k
               = file_at fs2 k).
  { apply writeFile_file_at. rewrite key_mod_ts. exact (Hk EmptyString). }
  destruct (writeFile _ _ fs2) as [[[]|e|] fs3]; simpl in Hw;
    (transitivity (file_at fs2 k); [exact Hw | exact He]).
Qed.

(** The loop of a directory leaves the aggregator of that directory alone. *)
Lemma gather_frame (fuel : nat) (this : Context) (fs : gmap string node) :
  file_at (snd (gather (barrel fuel) this fs)) (fullPath this +:+ "mod.ts")
  = file_at fs (fullPath this +:+ "mod.ts").
Proof.
  unfold gather. rewrite bind_unfold.
  pose proof (readdir_state (fullPath this) fs) as Hst.
  destruct (readdir (fullPath this) fs) as [[names|e|] fs1]; simpl in Hst;
    subst fs1; try reflexivity.
  apply each_frame; [intros ctx fs0; apply barrel_frame|].
  intros X HX Heq. apply (f_equal String.length) in Heq.
  rewrite !length_app in Heq. destruct X; [contradiction|].
  simpl in Heq. lia.
Qed.

(** C3: when [barrel] completes on a directory, either no entry was
    collected, the call answers false, the file system is left as the
    loop left it and holds under the aggregator key of the directory the
    file it held before the call, if any; or some entry was collected,
    the call answers true and the last step wrote the aggregator file of
    the directory. *)
Theorem C3_output_iff_entries (fuel : nat) (this : Context)
    (fs fs' : gmap string node) (b : bool) :
  barrel (S fuel) this fs = (Done b, fs') ->
  exists this' includes fs1,
    load_rules this fs = (Done this', fs)
    /\ gather (barrel fuel) this' fs = (Done includes, fs1)
    /\ ((includes = [] /\ b = false /\ fs' = fs1
         /\ file_at fs' (fullPath this +:+ "mod.ts")
            = file_at fs (fullPath this +:+ "mod.ts"))
        \/ (includes <> [] /\ b = true
            /\ writeFile (fullPath this +:+ "mod.ts")
                 (fold_left emit includes EmptyString) fs1 = (Done tt, fs')
            /\ exists r, file_at fs' (fullPath this +:+ "mod.ts")
                         = Some (r, fold_left emit includes EmptyString))).
Proof.
  intros H. apply barrel_Done_inv in H as (this' & includes & fs1 & Hl & Hp & Hg & Hf).
  exists this', includes, fs1. split; [exact Hl|]. split; [exact Hg|].
  destruct includes as [|e l].
  - left. rewrite flush_empty in Hf. injection Hf as <- <-.
    repeat split. rewrite <- Hp.
    pose proof (gather_frame fuel this' fs) as Hfr. now rewrite Hg in Hfr.
  - right. rewrite flush_nonempty in Hf by discriminate.
    apply bind_Done_inv in Hf as ([] & fs2 & Hw & Hr).
    injection Hr as <- <-. rewrite Hp in Hw.
    split; [discriminate|]. split; [reflexivity|]. split; [exact Hw|].
    apply writeFile_Done_inv in Hw as (names & _ & _ & r & Hr).
    rewrite key_mod_ts in Hr. eauto.
Qed.

End Frame.

(** ** What a walk keeps, whatever its outcome *)

Section Keeps.

Context {engine : IgnoreEngine}.








(** X1: [barrel] terminates.  For every context and file system there is a
    recursion budget from which every budget gives one and the same
    outcome, and that outcome is a value or a thrown error. *)
Theorem X1_barrel_terminates (this : Context) (fs : gmap string node) :
  exists (fuel : nat) (r : outcome bool) (fs' : gmap string node),
    r <> Timeout /\
    forall fuel', (fuel <= fuel')%nat -> barrel fuel' this fs = (r, fs').
Proof. apply barrel_total. Qed.


End Keeps.

(** ** More on one call of the walker *)

Section WalkerMore.

Context {engine : IgnoreEngine}.

Lemma writeFile_failed_state (p data : string) (fs : gmap string node) :
  fst (writeFile p data fs) <> Done tt -> snd (writeFile p data fs) = fs.
Proof.
  unfold writeFile. cbv zeta.
  destruct (fs !! dirname (key p)) as [[r x|l|]|]; try reflexivity.
  destruct (fs !! key p) as [[r x|l'|]|]; simpl; intros H;
    try reflexivity; now elim H.
Qed.


(** X4: unless [barrel] answers true, the aggregator of its directory is
    not written: after a call that answered false, threw, or ran out of
    budget, the aggregator key of the directory holds what it held. *)
Theorem X4_no_aggregator_unless_true (fuel : nat) (this : Context)
    (fs : gmap string node) :
  fst (barrel fuel this fs) <> Done true ->
  file_at (snd (barrel fuel this fs)) (fullPath this +:+ "mod.ts")
  = file_at fs (fullPath this +:+ "mod.ts").
Proof.
  destruct fuel as [|fuel]; [reflexivity|].
  rewrite barrel_S, bind_unfold.
  destruct (load_rules_total this fs) as (this' & -> & _ & _ & Hp).
  rewrite <- Hp. unfold walk. rewrite bind_unfold.
  pose proof (gather_frame fuel this' fs) as Hfr.
  destruct (gather (barrel fuel) this' fs) as [[includes|e|] fs1];
    simpl in Hfr; try (intros _; exact Hfr).
  unfold flush. destruct (Z.of_nat (List.length includes) <? 1);
    [intros _; exact Hfr|].
  rewrite bind_unfold.
  pose proof (writeFile_failed_state (fullPath this' +:+ "mod.ts")
                (fold_left emit includes EmptyString) fs1) as Hw.
  destruct (writeFile _ _ fs1) as [[[]|e|] fs2]; simpl in Hw; simpl.
  - intros H. now elim H.
  - intros _. now rewrite Hw.
  - intros _. now rewrite Hw.
Qed.

(** X5: a directory that cannot be listed makes [barrel] throw the error
    of the listing and leave the file system untouched. *)
Theorem X5_unlistable_directory_throws (fuel : nat) (this : Context)
    (fs : gmap string node) (e : errno) :
  fst (readdir (fullPath this) fs) = Throw e ->
  barrel (S fuel) this fs = (Throw e, fs).
Proof.
  intros H. rewrite barrel_S, bind_unfold.
  destruct (load_rules_total this fs) as (this' & -> & _ & _ & Hp).
  unfold walk, gather. rewrite !bind_unfold, Hp.
  pose proof (readdir_state (fullPath this) fs) as Hst.
  destruct (readdir (fullPath this) fs) as [[names|e'|] fs1]; simpl in *;
    subst; try discriminate H. now injection H as ->.
Qed.

Lemma each_leaf (visit : Context -> IO bool) (this : Context)
    (fs : gmap string node) (names : list string) :
  (forall n, n ∈ names -> skipped n = false ->
     exists st, fst (lstat (fullPath this +:+ n) fs) = Done st
                /\ isDirectory st = false) ->
  forall includes,
    each visit this names includes fs
    = (Done (includes ++ map (fun n => stage n false)
                            (List.filter (eligible this fs) names)), fs).
Proof.
  induction names as [|n rest IH]; intros Hleaf includes.
  - simpl. now rewrite app_nil_r.
  - assert (Hrest : forall m, m ∈ rest -> skipped m = false ->
              exists st, fst (lstat (fullPath this +:+ m) fs) = Done st
                         /\ isDirectory st = false).
    { intros m Hm. apply Hleaf. now right. }
    rewrite each_cons. simpl List.filter. unfold eligible at 1.
    destruct (skipped n) eqn:Hs; [exact (IH Hrest includes)|].
    destruct (Hleaf n ltac:(left) Hs) as (st & Hst & Hd).
    rewrite bind_unfold. pose proof (lstat_state (fullPath this +:+ n) fs) as Hfs.
    destruct (lstat (fullPath this +:+ n) fs) as [o fs1]. simpl in Hst, Hfs.
    subst o fs1. simpl. rewrite Hd.
    destruct (isFile st); simpl; [|exact (IH Hrest includes)].
    destruct (ignored this n); simpl; [exact (IH Hrest includes)|].
    rewrite (IH Hrest). now rewrite <- app_assoc.
Qed.

(** X6: in a directory without sub-directories the call is a filter: the
    entries are the listed names that are not skipped, are regular files
    and are not excluded by the loaded rules, in listing order, each under
    the identifier of its name; nothing is written before the end, where
    the aggregator is written if there is an entry. *)
Theorem X6_leaf_directory (fuel : nat) (this this' : Context)
    (fs : gmap string node) (names : list string) :
  load_rules this fs = (Done this', fs) ->
  readdir (fullPath this) fs = (Done names, fs) ->
  (forall n, n ∈ names -> skipped n = false ->
     exists st, fst (lstat (fullPath this +:+ n) fs) = Done st
                /\ isDirectory st = false) ->
  barrel (S fuel) this fs
  = flush this' (map (fun n => mkEntry (Namespace n) n)
                     (List.filter (eligible this' fs) names)) fs.
Proof.
  intros Hl Hr Hleaf.
  destruct (load_rules_total this fs) as (this0 & Hl0 & _ & _ & Hp).
  rewrite Hl in Hl0. injection Hl0 as <-.
  rewrite barrel_S, (bind_Done _ _ _ _ _ Hl). unfold walk, gather.
  rewrite <- Hp in Hr, Hleaf.
  rewrite bind_unfold, (bind_Done _ _ _ _ _ Hr).
  now rewrite (each_leaf (barrel fuel) this' fs names Hleaf []).
Qed.

Lemma each_order (visit : Context -> IO bool) (this : Context) :
  forall (names : list string) (includes includes' : list Entry)
         (fs fs' : gmap string node),
    each visit this names includes fs = (Done includes', fs') ->
    exists chosen : list (string * bool),
      includes' = includes ++ map (fun nd => stage (fst nd) (snd nd)) chosen
      /\ sublist (map fst chosen) names
      /\ Forall (fun nd => skipped (fst nd) = false) chosen.
Proof.
  induction names as [|n rest IH]; intros includes includes' fs fs' H.
  - injection H as <- <-. exists []. simpl. rewrite app_nil_r.
    repeat split; constructor.
  - assert (Hskip : forall inc fs0,
      each visit this rest inc fs0 = (Done includes', fs') ->
      exists chosen : list (string * bool),
        includes' = inc ++ map (fun nd => stage (fst nd) (snd nd)) chosen
        /\ sublist (map fst chosen) (n :: rest)
        /\ Forall (fun nd => skipped (fst nd) = false) chosen).
    { intros inc fs0 H0. destruct (IH _ _ _ _ H0) as (chosen & He & Hs & Hf).
      exists chosen. repeat split; [exact He | now constructor | exact Hf]. }
    assert (Htake : forall d fs0,
      skipped n = false ->
      each visit this rest (includes ++ [stage n d]) fs0 = (Done includes', fs') ->
      exists chosen : list (string * bool),
        includes' = includes ++ map (fun nd => stage (fst nd) (snd nd)) chosen
        /\ sublist (map fst chosen) (n :: rest)
        /\ Forall (fun nd => skipped (fst nd) = false) chosen).
    { intros d fs0 Hs0 H0. destruct (IH _ _ _ _ H0) as (chosen & He & Hs & Hf).
      exists ((n, d) :: chosen). split; [|split].
      - rewrite He. simpl. now rewrite <- app_assoc.
      - simpl. now constructor.
      - constructor; [exact Hs0 | exact Hf]. }
    rewrite each_cons in H. destruct (skipped n) eqn:Hs; [now apply Hskip in H|].
    apply bind_Done_inv in H as (st & fs1 & _ & H).
    destruct (isDirectory st).
    + apply bind_Done_inv in H as (b & fs2 & _ & H).
      destruct b; [exact (Htake true _ eq_refl H) | exact (Hskip _ _ H)].
    + destruct (negb (isFile st)); [exact (Hskip _ _ H)|].
      destruct (ignored this n); [exact (Hskip _ _ H)|].
      exact (Htake false _ eq_refl H).
Qed.

(** X7: the entries of a directory follow its listing: they are staged in
    listing order, at most one for each listed name and none for a skipped
    name (hidden, [node_modules], [mod.ts]); each carries the identifier
    of its name and the name itself, or the aggregator path below it. *)
Theorem X7_entries_follow_listing (fuel : nat) (this : Context)
    (fs fs' : gmap string node) (includes : list Entry) :
  gather (barrel fuel) this fs = (Done includes, fs') ->
  exists (names : list string) (chosen : list (string * bool)),
    readdir (fullPath this) fs = (Done names, fs)
    /\ includes = map (fun nd => stage (fst nd) (snd nd)) chosen
    /\ sublist (map fst chosen) names
    /\ Forall (fun nd => skipped (fst nd) = false) chosen.
Proof.
  unfold gather. intros H. apply bind_Done_inv in H as (names & fs1 & Hr & H).
  pose proof (readdir_state (fullPath this) fs) as Hst. rewrite Hr in Hst.
  simpl in Hst. subst fs1.
  destruct (each_order _ _ _ _ _ _ _ H) as (chosen & He & Hs & Hf).
  exists names, chosen. auto.
Qed.


End WalkerMore.

(** ** The cascade of rules *)

Section Cascade.

Context {engine : IgnoreEngine}.

Lemma Context_chain_ind (P : Context -> Prop) :
  (forall r f fp, P (mkContext None r f fp)) ->
  (forall q r f fp, P q -> P (mkContext (Some q) r f fp)) ->
  forall c, P c.
Proof.
  intros Hroot Hstep. fix IH 1. intros [[q|] r f fp].
  - apply Hstep, IH.
  - apply Hroot.
Qed.

Lemma has_slash_app_l (f p : string) :
  has_slash f = true -> has_slash (f +:+ p) = true.
Proof.
  induction f as [|a f IH]; [discriminate|].
  rewrite app_cons. simpl. intros H. apply orb_true_iff in H as [H|H].
  - now rewrite H.
  - rewrite (IH H). apply orb_true_r.
Qed.

Lemma slashed_not_structural (f p : string) :
  has_slash f = true -> structural (f +:+ p) = false.
Proof.
  intros H. apply (has_slash_app_l f p) in H. unfold structural.
  apply orb_false_iff. split; apply String.eqb_neq; intros E;
    rewrite E in H; discriminate H.
Qed.

Lemma ignored_lineage (c : Context) :
  slashed c = true ->
  forall p, ignored c p = negb (structural p) && existsb matches (lineage c p).
Proof.
  induction c as [r f fp|q r f fp IH] using Context_chain_ind; intros Hs p.
  - rewrite ignored_unfold. unfold structural, matches. simpl.
    destruct (String.eqb p ".git"); [reflexivity|].
    destruct (String.eqb p "node_modules"); [reflexivity|].
    simpl. destruct r as [r|]; [|reflexivity].
    now destruct (ignore_test r p).
  - simpl in Hs. apply andb_true_iff in Hs as [Hf Hq].
    rewrite ignored_unfold. cbn [parent rules folder lineage existsb].
    unfold structural, matches at 1. cbn [fst snd].
    destruct (String.eqb p ".git"); [reflexivity|].
    destruct (String.eqb p "node_modules"); [reflexivity|].
    cbn [orb negb andb].
    rewrite (IH Hq), (slashed_not_structural f p Hf). cbn [negb andb].
    destruct r as [r|]; [|reflexivity].
    now destruct (ignore_test r p).
Qed.

(** X9: rules cascade by path prefixing.  In a chain of contexts whose
    folders below the root carry a separator, a path is excluded exactly
    when it is not [.git] or [node_modules] and some context on the way up
    to the root has rules that match the path as rebuilt for that context,
    the folders in between put in front; the contexts the walker makes for
    sub-directories extend such a chain. *)
Theorem X9_rules_cascade (c : Context) (p : string) :
  slashed c = true ->
  ignored c p = negb (structural p) && existsb matches (lineage c p)
  /\ (forall name,
        slashed (new_Context (name +:+ "/") (Some c)) = true
        /\ lineage (new_Context (name +:+ "/") (Some c)) p
           = (None, p) :: lineage c ((name +:+ "/") +:+ p)).
Proof.
  intros Hs. split; [now apply ignored_lineage|].
  intros name. split; [|reflexivity].
  simpl. rewrite Hs, andb_true_r. apply (has_slash_under name EmptyString).
Qed.

End Cascade.

(** ** More on the identifier deriver *)

Section DeriverMore.

Import Reference.

Lemma has_dot_under (s e : string) : has_dot (s +:+ String "." e) = true.
Proof.
  induction s as [|b s IH]; [reflexivity|].
  rewrite app_cons. simpl. rewrite IH. apply orb_true_r.
Qed.

Lemma stem_under (s e : string) :
  has_dot e = false -> stem (s +:+ String "." e) = s.
Proof.
  intros He. induction s as [|b s IH].
  - change (EmptyString +:+ String "." e) with (String "." e).
    simpl. now rewrite He.
  - rewrite app_cons. simpl. rewrite has_dot_under, andb_false_r.
    now rewrite IH.
Qed.

Lemma scan_length (t : string) (start : bool) :
  (String.length (scan start t) <= String.length t)%nat.
Proof.
  revert start. induction t as [|a t IH]; intros start; simpl; [lia|].
  destruct (alnum a); simpl.
  - specialize (IH false). lia.
  - specialize (IH true). lia.
Qed.

Lemma stem_length (s : string) :
  (String.length (stem s) <= String.length s)%nat.
Proof.
  induction s as [|a s IH]; simpl; [lia|].
  destruct (Ascii.eqb a "." && negb (has_dot s)); simpl; lia.
Qed.

Lemma upper_head (a : ascii) :
  alnum a = true ->
  48 <= Js.charCodeAt (Js.toUpperCase a) <= 57
  \/ 65 <= Js.charCodeAt (Js.toUpperCase a) <= 90.
Proof.
  destruct a as [[] [] [] [] [] [] [] []]; intros H;
    try discriminate H; vm_compute; intuition discriminate.
Qed.

Lemma scan_head (t : string) :
  match scan true t with
  | EmptyString => True
  | String c _ => 48 <= Js.charCodeAt c <= 57 \/ 65 <= Js.charCodeAt c <= 90
  end.
Proof.
  induction t as [|a t IH]; simpl; [exact I|].
  destruct (alnum a) eqn:Ha; [now apply upper_head | exact IH].
Qed.

Lemma scan_empty_iff (t : string) (start : bool) :
  scan start t = EmptyString
  <-> Forall (fun c => IsLetterNumber c = false) (list_ascii_of_string t).
Proof.
  revert start. induction t as [|a t IH]; intros start; simpl.
  - split; [constructor | reflexivity].
  - rewrite <- IsLetterNumber_alnum. destruct (IsLetterNumber a) eqn:Ha.
    + split; [discriminate|]. intros H. inversion H; subst. congruence.
    + rewrite (IH true). split; [now constructor|].
      intros H. now inversion H.
Qed.

(** X10: the extension never reaches the identifier.  Two names that
    differ only in what follows the last ['.'] derive the same identifier,
    and a name with one ['.'] derives the identifier of what is before it:
    [foo.ts], [foo.js] and a directory [foo] collide. *)
Theorem X10_extension_is_dropped (s e1 e2 : string) :
  has_dot e1 = false -> has_dot e2 = false ->
  Namespace (s +:+ String "." e1) = Namespace (s +:+ String "." e2)
  /\ (has_dot s = false -> Namespace (s +:+ String "." e1) = Namespace s).
Proof.
  intros H1 H2. rewrite !Namespace_refines. unfold deriveIdentifier.
  rewrite (stem_under s e1 H1), (stem_under s e2 H2).
  split; [reflexivity|]. intros Hs. now rewrite (stem_no_dot s Hs).
Qed.

(** X11: the identifier is empty exactly when what is left of the name
    once its last extension is cut holds no ASCII letter or digit. *)
Theorem X11_empty_identifier (str : string) :
  Namespace str = EmptyString
  <-> Forall (fun c => IsLetterNumber c = false)
             (list_ascii_of_string (stem str)).
Proof.
  rewrite Namespace_refines. unfold deriveIdentifier.
  destruct (stem str) as [|a t] eqn:Hs.
  - simpl. split; [constructor | reflexivity].
  - simpl String.eqb. cbv iota. apply scan_empty_iff.
Qed.

(** X12: an identifier is never longer than the name it comes from, and
    it never starts with a lower-case letter: its first character, if it
    has one, is a capital letter or a digit. *)
Theorem X12_identifier_shape (str : string) :
  (String.length (Namespace str) <= String.length str)%nat
  /\ match Namespace str with
     | EmptyString => True
     | String c _ =>
         48 <= Js.charCodeAt c <= 57 \/ 65 <= Js.charCodeAt c <= 90
     end.
Proof.
  rewrite Namespace_refines. unfold deriveIdentifier.
  destruct (String.eqb (stem str) EmptyString).
  - split; [simpl; lia | exact I].
  - split; [|apply scan_head].
    pose proof (scan_length (stem str) true). pose proof (stem_length str). lia.
Qed.

End DeriverMore.

(** * The helpers of [app/util]: properties *)

(** ** [app/util/math.ts] *)

Section SortedSets.

Import Math_ts.

Context {T : Type} `{EqDecision T}.

Lemma greedy_nil_l (base : list T) :
  greedy [] base = bool_decide (base = []).
Proof. now destruct base. Qed.


Lemma greedy_sublist (sup base : list T) :
  greedy sup base = true <-> sublist base sup.
Proof.
  revert base. induction sup as [|x sup IH]; intros base.
  - rewrite greedy_nil_l. rewrite bool_decide_eq_true.
    split; [intros ->; constructor | apply sublist_nil_r].
  - destruct base as [|y base]; [split; [intros _; apply sublist_nil_l | reflexivity]|].
    simpl. destruct (bool_decide (x = y)) eqn:E.
    + apply bool_decide_eq_true in E as ->. rewrite IH.
      split; [apply sublist_skip|]. intros Hs.
      apply sublist_cons_r in Hs as [Hs|(l' & Heq & Hs)].
      * eapply sublist_cons_l in Hs as (k1 & k2 & -> & Hs).
        now apply sublist_inserts_l, sublist_cons.
      * now injection Heq as <-.
    + apply bool_decide_eq_false in E. rewrite IH.
      split; [apply sublist_cons|]. intros Hs.
      apply sublist_cons_r in Hs as [Hs|(l' & Heq & Hs)]; [exact Hs|].
      injection Heq as -> _. now elim E.
Qed.





(** X15: [CompareSortedSets] never answers [0].  It answers [1] when only
    [a] covers [b], [-1] when only [b] covers [a], and [null] otherwise:
    the entry [0] of the table, meant for two arrays that cover each
    other, is falsy and is turned into [null] by [|| null], so equal
    arrays get the answer of incomparable ones. *)
Theorem X15_CompareSortedSets_never_zero (a b : list T) :
  CompareSortedSets a b <> Some 0
  /\ (CompareSortedSets a b = Some 1
      <-> IsSortedSuperSet a b = true /\ IsSortedSuperSet b a = false)
  /\ (CompareSortedSets a b = Some (-1)
      <-> IsSortedSuperSet a b = false /\ IsSortedSuperSet b a = true)
  /\ (CompareSortedSets a b = None
      <-> IsSortedSuperSet a b = IsSortedSuperSet b a)
  /\ CompareSortedSets a a = None.
Proof.
  unfold CompareSortedSets.
  destruct (IsSortedSuperSet a a);
    destruct (IsSortedSuperSet a b), (IsSortedSuperSet b a); simpl;
    repeat split; try discriminate; try reflexivity;
    intros H'; try discriminate H'; destruct H'; discriminate.
Qed.

End SortedSets.

Section Hashes.

Import Math_ts.

Lemma ToInt32_shift (z k : Z) : ToInt32 (z + k * 2 ^ 32) = ToInt32 z.
Proof.
  unfold ToInt32. replace (z + k * 2 ^ 32 + 2 ^ 31) with (z + 2 ^ 31 + k * 2 ^ 32) by ring.
  now rewrite Z.mod_add by lia.
Qed.

Lemma ToInt32_wraps (z : Z) : exists k, ToInt32 z = z + k * 2 ^ 32.
Proof.
  unfold ToInt32. exists (- ((z + 2 ^ 31) / 2 ^ 32)).
  pose proof (Z.div_mod (z + 2 ^ 31) (2 ^ 32) ltac:(lia)). lia.
Qed.

Lemma ToInt32_range (z : Z) : - 2 ^ 31 <= ToInt32 z < 2 ^ 31.
Proof.
  unfold ToInt32. pose proof (Z.mod_pos_bound (z + 2 ^ 31) (2 ^ 32) ltac:(lia)).
  lia.
Qed.

Lemma ToInt32_idem (z : Z) : ToInt32 (ToInt32 z) = ToInt32 z.
Proof.
  destruct (ToInt32_wraps z) as [k Hk].
  etransitivity; [apply f_equal, Hk | apply ToInt32_shift].
Qed.

Lemma QuickHash_push_31 (hash val : Z) :
  QuickHash_push hash val = ToInt32 (31 * hash + val).
Proof.
  unfold QuickHash_push, shl. cbv zeta.
  destruct (ToInt32_wraps hash) as [k1 H1]. rewrite H1.
  destruct (ToInt32_wraps ((hash + k1 * 2 ^ 32) * 2 ^ 5)) as [k2 H2]. rewrite H2.
  replace ((hash + k1 * 2 ^ 32) * 2 ^ 5 + k2 * 2 ^ 32 - hash + val)
    with (31 * hash + val + (k1 * 2 ^ 5 + k2) * 2 ^ 32) by ring.
  apply ToInt32_shift.
Qed.

Lemma fold_left_step {A B : Type} (f : A -> B -> A) (x : B) (l : list B) (h : A) :
  fold_left f (x :: l) h = fold_left f l (f h x).
Proof. reflexivity. Qed.

Lemma QuickHash_push_wrapped (a c : Z) :
  QuickHash_push (ToInt32 a) c = ToInt32 (31 * a + c).
Proof.
  rewrite QuickHash_push_31.
  destruct (ToInt32_wraps a) as [k Hk].
  etransitivity; [apply (f_equal (fun h => ToInt32 (31 * h + c))), Hk|].
  cbv beta.
  etransitivity; [|apply (ToInt32_shift (31 * a + c) (31 * k))].
  apply f_equal. ring.
Qed.

Lemma QuickHash_fold (str : list Z) (a : Z) :
  fold_left QuickHash_push str (ToInt32 a)
  = ToInt32 (fold_left (fun acc c => 31 * acc + c) str a).
Proof.
  revert a. induction str as [|c str IH]; intros a; [reflexivity|].
  rewrite !fold_left_step, QuickHash_push_wrapped. apply IH.
Qed.

(** X16: [QuickHash.string] is the 32-bit two's complement wrap-around of
    the polynomial [s[0]*31^(n-1) + ... + s[n-1]] over the code units of
    the string: wrapping at every [push] loses nothing that wrapping once
    at the end keeps.  The result is an int32. *)
Theorem X16_QuickHash_is_polynomial (str : list Z) :
  QuickHash_string str = ToInt32 (polynomial31 str)
  /\ - 2 ^ 31 <= QuickHash_string str < 2 ^ 31.
Proof.
  assert (H : QuickHash_string str = ToInt32 (polynomial31 str)).
  { unfold QuickHash_string, string_with, polynomial31.
    change 0 with (ToInt32 0) at 1. apply QuickHash_fold. }
  split; [exact H|]. rewrite H. apply ToInt32_range.
Qed.

Lemma Hash72_fold (str : list Z) (a : Z) :
  Forall (fun c => 0 <= c) str -> 0 <= a < 1296 ->
  fold_left Hash72_push str a = (a + foldr Z.add 0 str) mod 1296.
Proof.
  revert a. induction str as [|c str IH]; intros a Hs Ha.
  - simpl. rewrite Z.add_0_r. symmetry. now apply Z.mod_small.
  - apply Forall_cons in Hs as [Hc Hs]. simpl fold_left. unfold Hash72_push at 2.
    unfold js_rem. rewrite Z.rem_mod_nonneg by lia.
    rewrite IH by (try exact Hs; apply Z.mod_pos_bound; lia).
    simpl foldr. rewrite Zplus_mod_idemp_l. f_equal. ring.
Qed.

(** X17: a [Hash72] fed a string holds the sum of its code units modulo
    1296, a number from 0 to 1295. *)
Theorem X17_Hash72_is_sum_mod_1296 (str : list Z) :
  Forall (fun c => 0 <= c) str ->
  Hash72_string str = (foldr Z.add 0 str) mod 1296
  /\ 0 <= Hash72_string str < 1296.
Proof.
  intros Hs.
  assert (H : Hash72_string str = (foldr Z.add 0 str) mod 1296).
  { unfold Hash72_string, string_with. now rewrite Hash72_fold by (try exact Hs; lia). }
  split; [exact H|]. rewrite H. apply Z.mod_pos_bound. lia.
Qed.

End Hashes.

Section Alignment.

Import Math_ts.

(** X18: for a non-negative integer and a positive multiple,
    [AlignUpInteger] is the least multiple that is not below [x] and
    [AlignDownInteger] the greatest that is not above it. *)
Theorem X18_align_nonnegative (x multiple : Z) :
  0 <= x -> 0 < multiple -> x + multiple <= MAX_SAFE_INTEGER ->
  (multiple | AlignUpInteger x multiple)
  /\ x <= AlignUpInteger x multiple < x + multiple
  /\ (multiple | AlignDownInteger x multiple)
  /\ AlignDownInteger x multiple <= x < AlignDownInteger x multiple + multiple.
Proof.
  intros Hx Hm _. unfold AlignUpInteger, AlignDownInteger, js_rem.
  replace (multiple =? 0) with false by (symmetry; apply Z.eqb_neq; lia).
  rewrite Z.rem_mod_nonneg by lia.
  pose proof (Z.mod_pos_bound x multiple Hm) as Hr.
  pose proof (Z.div_mod x multiple ltac:(lia)) as Hd.
  destruct (x mod multiple =? 0) eqn:E; simpl.
  - apply Z.eqb_eq in E.
    assert (Hdiv : (multiple | x)) by (exists (x / multiple); lia).
    repeat split; try exact Hdiv; lia.
  - apply Z.eqb_neq in E. repeat split; try lia.
    + exists (x / multiple + 1). lia.
    + exists (x / multiple). lia.
Qed.


End Alignment.

Section Searching.

Import Math_ts.

Context {T : Type} `{EqDecision T}.

Lemma at_index_in_range (arr : list T) (i : Z) :
  0 <= i < Z.of_nat (length arr) -> exists x, at_index arr i = Some x.
Proof.
  intros Hi. unfold at_index.
  replace (i <? 0) with false by (symmetry; apply Z.ltb_ge; lia).
  destruct (lookup_lt_is_Some_2 arr (Z.to_nat i) ltac:(lia)) as [x Hx]. eauto.
Qed.

Lemma BinarySearchIndex_end_sound (arr : list T) (compare : option T -> Z)
    (s e : Z) :
  let r := BinarySearchIndex_end arr compare s e in
  r = -1 \/ (compare (at_index arr r) = 0 /\ (r = s \/ r = e)).
Proof.
  unfold BinarySearchIndex_end. cbv zeta.
  destruct (compare (at_index arr s) =? 0) eqn:Es.
  - right. apply Z.eqb_eq in Es. auto.
  - destruct (negb (s =? e)); [|now left].
    destruct (compare (at_index arr e) =? 0) eqn:Ee; [|now left].
    right. apply Z.eqb_eq in Ee. auto.
Qed.

Lemma BinarySearchIndex_loop_sound (compare : option T -> Z) (arr : list T)
    (steps : nat) :
  forall s e : Z,
    let r := BinarySearchIndex_loop steps arr compare s e in
    r = -1 \/ (compare (at_index arr r) = 0 /\ (s <= r <= e \/ r = s \/ r = e)).
Proof.
  induction steps as [|steps IH]; intros s e; simpl.
  - destruct (BinarySearchIndex_end_sound arr compare s e) as [?|[? ?]]; auto.
  - destruct (s <? e) eqn:Hse;
      [|destruct (BinarySearchIndex_end_sound arr compare s e) as [?|[? ?]]; auto].
    apply Z.ltb_lt in Hse.
    destruct ((e - s) / 2 =? 0) eqn:Hspan;
      [destruct (BinarySearchIndex_end_sound arr compare s e) as [?|[? ?]]; auto|].
    apply Z.eqb_neq in Hspan.
    assert (Hm : s < s + (e - s) / 2 < e).
    { pose proof (Z.div_pos (e - s) 2 ltac:(lia) ltac:(lia)).
      pose proof (Z.div_lt_upper_bound (e - s) 2 (e - s) ltac:(lia) ltac:(lia)).
      lia. }
    destruct (compare (at_index arr (s + (e - s) / 2)) =? 0) eqn:Ec.
    + right. apply Z.eqb_eq in Ec. split; [exact Ec|]. left. lia.
    + destruct (compare (at_index arr (s + (e - s) / 2)) <? 0).
      * destruct (IH s (s + (e - s) / 2)) as [?|[? Hr]]; [now left|].
        right. split; [assumption|]. left. lia.
      * destruct (IH (s + (e - s) / 2) e) as [?|[? Hr]]; [now left|].
        right. split; [assumption|]. left. lia.
Qed.

(** X20: [BinarySearchIndex] answers [-1] or an index at which [compare]
    answers [0]; on a non-empty array that index is within the array.  On
    an empty array [compare] is called on [undefined], and the answer is
    the index [0] if [compare] accepts that. *)
Theorem X20_BinarySearchIndex_sound (arr : list T) (compare : option T -> Z) :
  (BinarySearchIndex arr compare = -1
   \/ compare (at_index arr (BinarySearchIndex arr compare)) = 0)
  /\ (arr <> [] ->
      BinarySearchIndex arr compare = -1
      \/ 0 <= BinarySearchIndex arr compare < Z.of_nat (length arr))
  /\ BinarySearchIndex [] compare = (if compare None =? 0 then 0 else -1).
Proof.
  split; [|split].
  - destruct (BinarySearchIndex_loop_sound compare arr (length arr) 0
                (Z.of_nat (length arr) - 1)) as [?|[? _]]; auto.
  - intros Hne.
    destruct (BinarySearchIndex_loop_sound compare arr (length arr) 0
                (Z.of_nat (length arr) - 1)) as [?|[_ Hr]]; [now left|].
    right. unfold BinarySearchIndex. destruct arr; [contradiction|].
    simpl length in *. lia.
  - unfold BinarySearchIndex, BinarySearchIndex_end. simpl.
    unfold BinarySearchIndex_end, at_index. simpl.
    destruct (compare None =? 0); reflexivity.
Qed.

Lemma BinarySearchIndex_loop_complete (compare : option T -> Z)
    (arr : list T) :
  (forall (i j : nat) (x y : T), (i <= j)%nat ->
     arr !! i = Some x -> arr !! j = Some y ->
     compare (Some y) <= compare (Some x)) ->
  forall (steps : nat) (s e : Z) (k : nat) (x : T),
    0 <= s -> s <= Z.of_nat k <= e -> e < Z.of_nat (length arr) ->
    e - s <= Z.of_nat steps ->
    arr !! k = Some x -> compare (Some x) = 0 ->
    BinarySearchIndex_loop steps arr compare s e <> -1.
Proof.
  intros Hsorted.
  assert (Hat : forall i : nat, at_index arr (Z.of_nat i) = arr !! i).
  { intros i. unfold at_index.
    replace (Z.of_nat i <? 0) with false by (symmetry; apply Z.ltb_ge; lia).
    now rewrite Nat2Z.id. }
  assert (Hend : forall (s e : Z) (k : nat) (x : T),
    0 <= s -> (Z.of_nat k = s \/ Z.of_nat k = e) ->
    arr !! k = Some x -> compare (Some x) = 0 ->
    BinarySearchIndex_end arr compare s e <> -1).
  { intros s e k x Hs Hk Hx Hc. unfold BinarySearchIndex_end. cbv zeta.
    destruct (compare (at_index arr s) =? 0) eqn:Es; [lia|].
    destruct Hk as [<-|<-].
    - rewrite Hat, Hx, Hc in Es. discriminate Es.
    - destruct (s =? Z.of_nat k) eqn:Ese.
      + apply Z.eqb_eq in Ese. subst s. rewrite Hat, Hx, Hc in Es. discriminate Es.
      + simpl. rewrite Hat, Hx, Hc. simpl. lia. }
  induction steps as [|steps IH]; intros s e k x Hs Hk He Hsteps Hx Hc; simpl.
  - apply (Hend s e k x); auto. left. lia.
  - destruct (s <? e) eqn:Hse; [|apply (Hend s e k x); auto; left;
                                  apply Z.ltb_ge in Hse; lia].
    apply Z.ltb_lt in Hse.
    destruct ((e - s) / 2 =? 0) eqn:Hspan.
    + apply Z.eqb_eq in Hspan. apply (Hend s e k x); auto.
      assert (e - s < 2) by (apply Z.div_small_iff in Hspan; lia). lia.
    + apply Z.eqb_neq in Hspan.
      assert (Hm : s < s + (e - s) / 2 < e).
      { pose proof (Z.div_pos (e - s) 2 ltac:(lia) ltac:(lia)).
        pose proof (Z.div_lt_upper_bound (e - s) 2 (e - s) ltac:(lia) ltac:(lia)).
        lia. }
      set (m := s + (e - s) / 2) in *.
      destruct (at_index_in_range arr m ltac:(lia)) as [y Hy].
      assert (Hmy : arr !! Z.to_nat m = Some y).
      { rewrite <- Hat. now rewrite Z2Nat.id by lia. }
      rewrite Hy. destruct (compare (Some y) =? 0) eqn:Ec; [lia|].
      apply Z.eqb_neq in Ec.
      destruct (compare (Some y) <? 0) eqn:El.
      * apply Z.ltb_lt in El. apply (IH s m k x); auto; try lia.
        destruct (Z_le_gt_dec m (Z.of_nat k)) as [Hge|Hlt]; [|lia].
        pose proof (Hsorted (Z.to_nat m) k y x ltac:(lia) Hmy Hx). lia.
      * apply Z.ltb_ge in El. apply (IH m e k x); auto; try lia.
        destruct (Z_le_gt_dec (Z.of_nat k) m) as [Hle|Hgt]; [|lia].
        pose proof (Hsorted k (Z.to_nat m) x y ltac:(lia) Hx Hmy). lia.
Qed.

(** X21: on an array that [compare] sorts (its answers never grow from
    left to right: positive before the target, negative after it),
    [BinarySearchIndex] finds an element for which [compare] answers [0]
    whenever there is one, and [BinarySearch] returns such an element. *)
Theorem X21_BinarySearch_complete (arr : list T) (compare : option T -> Z)
    (k : nat) (x : T) :
  (forall (i j : nat) (a b : T), (i <= j)%nat ->
     arr !! i = Some a -> arr !! j = Some b ->
     compare (Some b) <= compare (Some a)) ->
  arr !! k = Some x -> compare (Some x) = 0 ->
  BinarySearchIndex arr compare <> -1
  /\ exists y, BinarySearch arr compare = Some (Some y)
               /\ y ∈ arr /\ compare (Some y) = 0.
Proof.
  intros Hsorted Hx Hc.
  pose proof (lookup_lt_Some _ _ _ Hx) as Hlen.
  assert (Hfound : BinarySearchIndex arr compare <> -1).
  { apply (BinarySearchIndex_loop_complete compare arr Hsorted _ _ _ k x);
      auto; lia. }
  split; [exact Hfound|].
  assert (Hne : arr <> []) by (intros ->; simpl in Hlen; lia).
  destruct (BinarySearchIndex_loop_sound compare arr (length arr) 0
              (Z.of_nat (length arr) - 1)) as [Hr|[Hz Hr]];
    [now elim Hfound|].
  fold (BinarySearchIndex arr compare) in Hz, Hr.
  destruct (at_index_in_range arr (BinarySearchIndex arr compare) ltac:(lia))
    as [y Hy].
  exists y. unfold BinarySearch. cbv zeta.
  replace (BinarySearchIndex arr compare =? -1) with false
    by (symmetry; now apply Z.eqb_neq).
  rewrite Hy in *. split; [reflexivity|]. split; [|exact Hz].
  unfold at_index in Hy.
  destruct (BinarySearchIndex arr compare <? 0); [discriminate Hy|].
  now apply list_elem_of_lookup_2 in Hy.
Qed.

End Searching.

(** ** [app/util/format/text.ts] *)

Section Patterns.

Import Units Text_ts.

Lemma DbSegmentMatching_loop_like (steps : nat) (str : list Z) :
  forall (i : nat) (out : list Z),
    (length str <= steps + i)%nat ->
    DbSegmentMatching_loop steps str i out = out ++ like_units (drop i str).
Proof.
  induction steps as [|steps IH]; intros i out Hlen; simpl.
  - rewrite drop_ge by lia. now rewrite app_nil_r.
  - destruct (str !! i) as [c|] eqn:Hi.
    + rewrite (drop_S _ _ _ Hi). rewrite IH by lia. simpl like_units.
      destruct (bool_decide (c ∈ SQL_MUST_ESCAPE)); simpl;
        now rewrite <- !app_assoc.
    + rewrite drop_ge by (now apply lookup_ge_None). now rewrite app_nil_r.
Qed.

Lemma DbSegmentMatching_like (str : list Z) :
  DbSegmentMatching str = 37 :: like_units str.
Proof.
  unfold DbSegmentMatching. destruct (bool_decide (str = [])) eqn:E.
  - apply bool_decide_eq_true in E. now subst.
  - now rewrite DbSegmentMatching_loop_like by lia.
Qed.

Lemma unlike_like (str : list Z) : unlike (like_units str) = str.
Proof.
  induction str as [|c rest IH]; [reflexivity|].
  simpl like_units. destruct (bool_decide (c ∈ SQL_MUST_ESCAPE)) eqn:E.
  - simpl. now rewrite IH.
  - apply bool_decide_eq_false in E.
    assert (H92 : c <> 92) by (intros ->; apply E; set_solver).
    assert (H37 : c <> 37) by (intros ->; apply E; set_solver).
    simpl. apply Z.eqb_neq in H92, H37. now rewrite H92, H37, IH.
Qed.

(** X29: [DbSegmentMatching] loses nothing of its input.  The pattern
    starts with ['%'], and reading it back (an escaped unit stands for
    itself, a bare ['%'] for nothing) gives the string again; so two
    strings never share a pattern.  The empty string gives ["%"]. *)
Theorem X29_DbSegmentMatching_round_trip (str : list Z) :
  unlike (DbSegmentMatching str) = str
  /\ head (DbSegmentMatching str) = Some 37
  /\ DbSegmentMatching [] = [37]
  /\ (forall other, DbSegmentMatching other = DbSegmentMatching str ->
        other = str).
Proof.
  assert (H : forall s, unlike (DbSegmentMatching s) = s).
  { intros s. rewrite DbSegmentMatching_like. simpl. apply unlike_like. }
  split; [apply H|]. split; [now rewrite DbSegmentMatching_like|].
  split; [reflexivity|].
  intros other Heq. rewrite <- (H other), Heq. apply H.
Qed.

Lemma SpaceCamelCase_loop_S (steps : nat) (str : list Z) (i : nat)
    (out : list Z) :
  SpaceCamelCase_loop (S steps) str i out =
  match str !! i with
  | None => out
  | Some curr =>
      SpaceCamelCase_loop steps str (S i)
        ((if is_capital curr then
            match str !! (i - 1)%nat with
            | Some prev => if is_lower_case prev then out ++ [32] else out
            | None => out
            end
          else out) ++ [curr])
  end.
Proof. reflexivity. Qed.

Lemma SpaceCamelCase_loop_spaced (steps : nat) :
  forall (rest pre : list Z) (prev : Z) (out : list Z),
    (length rest <= steps)%nat ->
    SpaceCamelCase_loop steps (pre ++ prev :: rest) (S (length pre)) out
    = out ++ spaced prev rest.
Proof.
  induction steps as [|steps IH]; intros rest pre prev out Hlen.
  - destruct rest; [|simpl in Hlen; lia]. simpl. now rewrite app_nil_r.
  - rewrite SpaceCamelCase_loop_S. destruct rest as [|c rest].
    + rewrite lookup_ge_None_2 by (rewrite List.length_app; simpl; lia).
      simpl. now rewrite app_nil_r.
    + assert (H1 : (pre ++ prev :: c :: rest) !! S (length pre) = Some c).
      { rewrite (cons_middle prev pre (c :: rest)), app_assoc.
        apply list_lookup_middle. rewrite List.length_app. simpl. lia. }
      assert (H2 : (pre ++ prev :: c :: rest) !! (S (length pre) - 1)%nat
                   = Some prev).
      { apply list_lookup_middle. lia. }
      rewrite H1, H2.
      assert (Hstr : pre ++ prev :: c :: rest = (pre ++ [prev]) ++ c :: rest)
        by (now rewrite <- app_assoc).
      assert (Hidx : S (S (length pre)) = S (length (pre ++ [prev])))
        by (rewrite List.length_app; simpl; lia).
      rewrite Hstr, Hidx, IH by (simpl in Hlen; lia). simpl spaced.
      destruct (is_capital c); simpl;
        [destruct (is_lower_case prev); simpl|]; now rewrite <- !app_assoc.
Qed.

Lemma SpaceCamelCase_spaced (c : Z) (rest : list Z) :
  SpaceCamelCase (c :: rest) = Some (c :: spaced c rest).
Proof.
  unfold SpaceCamelCase. simpl lookup. f_equal.
  exact (SpaceCamelCase_loop_spaced (length (c :: rest)) rest [] c [c]
           ltac:(simpl; lia)).
Qed.

Lemma spaced_filter (prev : Z) (rest : list Z) :
  List.filter (fun x => negb (x =? 32)) (spaced prev rest)
  = List.filter (fun x => negb (x =? 32)) rest.
Proof.
  revert prev. induction rest as [|c rest IH]; intros prev; [reflexivity|].
  cbn [spaced]. rewrite List.filter_app. cbn [List.filter]. rewrite IH.
  now destruct (is_capital c && is_lower_case prev).
Qed.

Lemma spaced_idem (rest : list Z) :
  forall prev, spaced prev (spaced prev rest) = spaced prev rest.
Proof.
  induction rest as [|c rest IH]; intros prev; [reflexivity|].
  cbn [spaced]. destruct (is_capital c && is_lower_case prev) eqn:E;
    cbn [app spaced].
  - change (is_capital 32) with false. change (is_lower_case 32) with false.
    rewrite andb_false_r. cbn [andb app]. now rewrite IH.
  - rewrite E. cbn [app]. now rewrite IH.
Qed.

Lemma spaced_length (rest : list Z) :
  forall prev, (length rest <= length (spaced prev rest))%nat.
Proof.
  induction rest as [|c rest IH]; intros prev; simpl; [lia|].
  rewrite List.length_app. simpl. specialize (IH c). lia.
Qed.

(** X24: [SpaceCamelCase] only adds spaces, and adds each once.  On a
    non-empty string the result, with its spaces taken out, is the string
    with its spaces taken out; it is at least as long; and spacing the
    result again changes nothing.  On the empty string the result is
    [undefined], not a string. *)
Theorem X24_SpaceCamelCase_adds_spaces_once (c : Z) (rest : list Z) :
  SpaceCamelCase [] = None
  /\ exists out,
       SpaceCamelCase (c :: rest) = Some out
       /\ List.filter (fun x => negb (x =? 32)) out
          = List.filter (fun x => negb (x =? 32)) (c :: rest)
       /\ (length (c :: rest) <= length out)%nat
       /\ SpaceCamelCase out = Some out.
Proof.
  split; [reflexivity|]. exists (c :: spaced c rest).
  split; [apply SpaceCamelCase_spaced|]. split; [|split].
  - simpl. now rewrite spaced_filter.
  - simpl. pose proof (spaced_length rest c). lia.
  - rewrite SpaceCamelCase_spaced. now rewrite spaced_idem.
Qed.

End Patterns.

(** ** [app/util/ui.ts] *)

Section Focus.

Import Ui_ts.

Lemma claims_claimed (n : nat) : claims n (mkClaim true) = repeat false n.
Proof. induction n as [|n IH]; [reflexivity|]. simpl. now rewrite IH. Qed.

(** X30: of any number of calls of [claim] on one [AutoFocusClaim], the
    first answers true and every later one false. *)
Theorem X30_only_first_claim_succeeds (n : nat) :
  claims (S n) new_AutoFocusClaim = true :: repeat false n.
Proof. simpl. now rewrite claims_claimed. Qed.

End Focus.

Section Cutting.

Import Units Text_ts Validate_ts.

Lemma occurs_at_split (str pivot : list Z) (k : nat) :
  occurs_at str pivot k = true ->
  str = take k str ++ pivot ++ drop (k + length pivot) str
  /\ ((k <= length str)%nat -> (k + length pivot <= length str)%nat).
Proof.
  unfold occurs_at. intros H. apply bool_decide_eq_true in H. split.
  - rewrite <- (take_drop k str) at 1. f_equal.
    rewrite <- (take_drop (length pivot) (drop k str)) at 1.
    now rewrite H, drop_drop.
  - apply (f_equal length) in H. rewrite length_take, length_drop in H. lia.
Qed.

Lemma indexOf_from_first (str pivot : list Z) (steps : nat) :
  forall k : nat,
    (indexOf_from steps str pivot k = -1
     /\ forall j, (k <= j < k + steps)%nat -> occurs_at str pivot j = false)
    \/ exists j : nat,
         indexOf_from steps str pivot k = Z.of_nat j
         /\ (k <= j < k + steps)%nat
         /\ occurs_at str pivot j = true
         /\ forall j', (k <= j' < j)%nat -> occurs_at str pivot j' = false.
Proof.
  induction steps as [|steps IH]; intros k; simpl.
  - left. split; [reflexivity|]. intros j Hj. lia.
  - destruct (occurs_at str pivot k) eqn:E.
    + right. exists k. repeat split; try lia. exact E.
    + destruct (IH (S k)) as [[Hr Hno]|(j & Hr & Hj & Ho & Hno)].
      * left. split; [exact Hr|]. intros j Hj.
        destruct (decide (j = k)) as [->|Hne]; [exact E|]. apply Hno. lia.
      * right. exists j. repeat split; try lia; try assumption.
        intros j' Hj'. destruct (decide (j' = k)) as [->|Hne]; [exact E|].
        apply Hno. lia.
Qed.

Lemma lastIndexOf_from_found (str pivot : list Z) (k : nat) :
  lastIndexOf_from str pivot k = -1
  \/ exists j : nat,
       lastIndexOf_from str pivot k = Z.of_nat j
       /\ (j <= k)%nat /\ occurs_at str pivot j = true.
Proof.
  induction k as [|k IH]; simpl.
  - destruct (occurs_at str pivot 0) eqn:E; [|now left].
    right. exists 0%nat. auto.
  - destruct (occurs_at str pivot (S k)) eqn:E.
    + right. exists (S k). auto.
    + destruct IH as [?|(j & Hr & Hj & Ho)]; [now left|].
      right. exists j. repeat split; try assumption. lia.
Qed.

Lemma CutStringIndex_forward_found (str pivot : list Z) (n : nat) :
  forall cursor : Z,
    CutStringIndex_forward (S n) str pivot cursor = Z.of_nat (length str)
    \/ exists j : nat,
         CutStringIndex_forward (S n) str pivot cursor = Z.of_nat j
         /\ (j <= length str)%nat /\ occurs_at str pivot j = true.
Proof.
  induction n as [|n IH]; intros cursor.
  - simpl. unfold indexOf.
    destruct (indexOf_from_first str pivot
                (S (length str) -
                 Z.to_nat (Z.min (Z.max cursor 0) (Z.of_nat (length str))))
                (Z.to_nat (Z.min (Z.max cursor 0) (Z.of_nat (length str)))))
      as [[Hr _]|(j & Hr & Hj & Ho & _)]; rewrite Hr.
    + now left.
    + right. exists j. replace (Z.of_nat j =? -1) with false
        by (symmetry; apply Z.eqb_neq; lia).
      split; [lia|]. split; [lia | exact Ho].
  - change (CutStringIndex_forward (S (S n)) str pivot cursor)
      with (let i := indexOf str pivot cursor in
            if i =? -1 then Z.of_nat (length str)
            else CutStringIndex_forward (S n) str pivot (i + 1)).
    cbv zeta. destruct (indexOf str pivot cursor =? -1); [now left|].
    apply IH.
Qed.

Lemma CutStringIndex_backward_found (str pivot : list Z) (n : nat) :
  forall cursor : Z,
    CutStringIndex_backward (S n) str pivot cursor = Z.of_nat (length str)
    \/ exists j : nat,
         CutStringIndex_backward (S n) str pivot cursor = Z.of_nat j
         /\ (j <= length str)%nat /\ occurs_at str pivot j = true.
Proof.
  induction n as [|n IH]; intros cursor.
  - simpl. unfold lastIndexOf.
    destruct (lastIndexOf_from_found str pivot
                (Z.to_nat (Z.min (Z.max cursor 0) (Z.of_nat (length str)))))
      as [Hr|(j & Hr & Hj & Ho)]; rewrite Hr.
    + now left.
    + right. exists j. replace (Z.of_nat j =? -1) with false
        by (symmetry; apply Z.eqb_neq; lia).
      split; [lia|]. split; [lia | exact Ho].
  - change (CutStringIndex_backward (S (S n)) str pivot cursor)
      with (let i := lastIndexOf str pivot cursor in
            if i =? -1 then Z.of_nat (length str)
            else CutStringIndex_backward (S n) str pivot (i - 1)).
    cbv zeta. destruct (lastIndexOf str pivot cursor =? -1); [now left|].
    apply IH.
Qed.

Lemma CutStringIndex_found (str pivot : list Z) (offset : Z) :
  CutStringIndex str pivot offset = Z.of_nat (length str)
  \/ exists j : nat,
       CutStringIndex str pivot offset = Z.of_nat j
       /\ (j <= length str)%nat /\ occurs_at str pivot j = true.
Proof.
  unfold CutStringIndex. destruct (offset =? 0); [now left|].
  destruct (0 <? offset) eqn:Hpos.
  - apply Z.ltb_lt in Hpos.
    destruct (Z.to_nat offset) as [|n] eqn:E; [lia|].
    apply CutStringIndex_forward_found.
  - destruct (offset <? 0) eqn:Hneg; [|now left].
    apply Z.ltb_lt in Hneg.
    destruct (Z.to_nat (- offset)) as [|n] eqn:E; [lia|].
    apply CutStringIndex_backward_found.
Qed.

Lemma slice_take (str : list Z) (j : nat) :
  (j <= length str)%nat -> slice str 0 (Z.of_nat j) = take j str.
Proof.
  intros Hj. unfold slice. cbv zeta. change (0 <? 0) with false. cbv iota.
  replace (Z.of_nat j <? 0) with false by (symmetry; apply Z.ltb_ge; lia).
  rewrite (Z.min_l 0) by lia. rewrite (Z.min_l (Z.of_nat j)) by lia.
  change (Z.to_nat 0) with 0%nat. rewrite Z.sub_0_r, Nat2Z.id.
  now rewrite drop_0.
Qed.

Lemma slice_from_drop (str : list Z) (n : nat) :
  slice_from str (Z.of_nat n) = drop n str.
Proof.
  unfold slice_from, slice. cbv zeta.
  replace (Z.of_nat n <? 0) with false by (symmetry; apply Z.ltb_ge; lia).
  replace (Z.of_nat (length str) <? 0) with false
    by (symmetry; apply Z.ltb_ge; lia).
  rewrite (Z.min_id (Z.of_nat (length str))).
  destruct (Nat.le_gt_cases n (length str)) as [Hle|Hgt].
  - rewrite Z.min_l by lia. rewrite Nat2Z.id.
    apply take_ge. rewrite length_drop. lia.
  - rewrite Z.min_r by lia. rewrite Nat2Z.id.
    rewrite (drop_ge str n) by lia. rewrite drop_all. apply take_nil.
Qed.

Lemma CutString_found (str pivot : list Z) (offset : Z) (j : nat) :
  CutStringIndex str pivot offset = Z.of_nat j ->
  (j <= length str)%nat ->
  CutString str pivot offset = (take j str, drop (j + length pivot) str).
Proof.
  intros Hidx Hj. unfold CutString. cbv zeta. rewrite Hidx.
  rewrite slice_take by exact Hj. rewrite <- Nat2Z.inj_add.
  now rewrite slice_from_drop.
Qed.

Lemma CutString_first (str pivot : list Z) :
  (CutString str pivot 1 = (str, [])
   /\ forall j, (j <= length str)%nat -> occurs_at str pivot j = false)
  \/ exists j : nat,
       CutString str pivot 1 = (take j str, drop (j + length pivot) str)
       /\ (j + length pivot <= length str)%nat
       /\ occurs_at str pivot j = true
       /\ forall j', (j' < j)%nat -> occurs_at str pivot j' = false.
Proof.
  assert (Hidx : CutStringIndex str pivot 1
                 = (if indexOf str pivot 0 =? -1 then Z.of_nat (length str)
                    else indexOf str pivot 0)).
  { unfold CutStringIndex. simpl.
    destruct (indexOf str pivot 0 =? -1); [reflexivity | lia]. }
  unfold indexOf in Hidx. cbv zeta in Hidx.
  replace (Z.to_nat (Z.min (Z.max 0 0) (Z.of_nat (length str)))) with 0%nat
    in Hidx by lia.
  rewrite Nat.sub_0_r in Hidx.
  destruct (indexOf_from_first str pivot (S (length str)) 0)
    as [[Hr Hno]|(j & Hr & Hj & Ho & Hno)]; rewrite Hr in Hidx.
  - left. split; [|intros j Hj; apply Hno; lia].
    simpl in Hidx. rewrite (CutString_found str pivot 1 (length str) Hidx)
      by lia.
    rewrite take_ge by lia. now rewrite drop_ge by lia.
  - right. exists j.
    replace (Z.of_nat j =? -1) with false in Hidx
      by (symmetry; apply Z.eqb_neq; lia).
    destruct (occurs_at_split str pivot j Ho) as [_ Hlen].
    split; [apply CutString_found; [exact Hidx | lia]|].
    split; [apply Hlen; lia|]. split; [exact Ho|].
    intros j' Hj'. apply Hno. lia.
Qed.

(** X22: [CutString] loses nothing.  For every offset the two pieces
    joined by the pivot give the string back, or the pieces are the whole
    string and the empty string; with the default offset the first piece
    ends at the first occurrence of the pivot, and the pieces are the
    whole string and the empty string when the pivot does not occur. *)
Theorem X22_CutString_pieces (str pivot : list Z) (offset : Z) :
  (CutString str pivot offset = (str, [])
   \/ str = fst (CutString str pivot offset) ++ pivot
            ++ snd (CutString str pivot offset))
  /\ ((forall j, (j <= length str)%nat -> occurs_at str pivot j = false) ->
      CutString str pivot 1 = (str, []))
  /\ (forall k, (k <= length str)%nat -> occurs_at str pivot k = true ->
      str = fst (CutString str pivot 1) ++ pivot ++ snd (CutString str pivot 1)
      /\ (length (fst (CutString str pivot 1)) <= k)%nat
      /\ forall j', (j' < length (fst (CutString str pivot 1)))%nat ->
           occurs_at str pivot j' = false).
Proof.
  split; [|split].
  - destruct (CutStringIndex_found str pivot offset)
      as [Hidx|(j & Hidx & Hj & Ho)].
    + left. rewrite (CutString_found str pivot offset (length str) Hidx) by lia.
      rewrite take_ge by lia. now rewrite drop_ge by lia.
    + right. destruct (occurs_at_split str pivot j Ho) as [Hsplit _].
      rewrite (CutString_found str pivot offset j Hidx) by lia. exact Hsplit.
  - intros Hno. destruct (CutString_first str pivot)
      as [[Hc _]|(j & _ & Hlen & Ho & _)]; [exact Hc|].
    rewrite Hno in Ho by lia. discriminate Ho.
  - intros k Hk Hocc. destruct (CutString_first str pivot)
      as [[_ Hno]|(j & Hc & Hlen & Ho & Hfirst)].
    + rewrite Hno in Hocc by exact Hk. discriminate Hocc.
    + rewrite Hc. simpl fst. simpl snd. rewrite length_take.
      split; [apply (occurs_at_split str pivot j Ho)|].
      split.
      * destruct (Nat.le_gt_cases j k) as [Hle|Hgt]; [lia|].
        rewrite Hfirst in Hocc by exact Hgt. discriminate Hocc.
      * intros j' Hj'. apply Hfirst. lia.
Qed.

Lemma occurs_at_unit (str : list Z) (c : Z) (k : nat) :
  occurs_at str [c] k = true <-> str !! k = Some c.
Proof.
  unfold occurs_at. rewrite bool_decide_eq_true. simpl length.
  destruct (str !! k) as [x|] eqn:Hk.
  - rewrite (drop_S _ _ _ Hk). simpl. rewrite take_0.
    split; intros H; now injection H as ->.
  - rewrite drop_ge by (now apply lookup_ge_None). simpl.
    split; discriminate.
Qed.

Lemma CutString_at_sign (user domain : list Z) :
  64 ∉ user ->
  CutString (user ++ [64] ++ domain) [64] 1 = (user, domain).
Proof.
  intros Hno. set (str := user ++ [64] ++ domain).
  assert (Hat : occurs_at str [64] (length user) = true).
  { apply occurs_at_unit. unfold str. now apply list_lookup_middle. }
  assert (Hbefore : forall j, (j < length user)%nat ->
            occurs_at str [64] j = false).
  { intros j Hj. destruct (occurs_at str [64] j) eqn:E; [|reflexivity].
    apply occurs_at_unit in E. unfold str in E.
    rewrite lookup_app_l in E by exact Hj.
    apply list_elem_of_lookup_2 in E. now elim Hno. }
  destruct (CutString_first str [64])
    as [[_ Hnone]|(j & Hc & Hlen & Ho & Hfirst)].
  - rewrite Hnone in Hat; [discriminate Hat|].
    unfold str. rewrite !List.length_app. lia.
  - assert (j = length user) as ->.
    { destruct (Nat.lt_trichotomy j (length user)) as [Hlt|[Heq|Hgt]];
        [|exact Heq|].
      - rewrite Hbefore in Ho by exact Hlt. discriminate Ho.
      - rewrite Hfirst in Hat by exact Hgt. discriminate Hat. }
    rewrite Hc. unfold str. f_equal.
    + apply take_app_length.
    + rewrite <- drop_drop, drop_app_length. reflexivity.
Qed.

(** X23: what [ValidateEmail] lets through.  A string passes exactly when
    it has at most 320 units, holds an ['@'], has something before its
    first ['@'] and something after it, and the lookup finds a mail server
    for what is after it; whatever is not a string passes unchecked. *)
Theorem X23_ValidateEmail_accepts (resolveMx : list Z -> option nat)
    (str : list Z) :
  (ValidateEmail resolveMx (AString str) = None
   <-> (length str <= 320)%nat
       /\ exists user domain : list Z,
            str = user ++ [64] ++ domain
            /\ (64 ∉ user) /\ user <> [] /\ domain <> []
            /\ exists n, resolveMx domain = Some n /\ (1 <= n)%nat)
  /\ ValidateEmail resolveMx NotAString = None.
Proof.
  split; [|reflexivity]. unfold ValidateEmail. split.
  - destruct (320 <? Z.of_nat (length str)) eqn:Hlen; [discriminate|].
    apply Z.ltb_ge in Hlen.
    destruct (CutString_first str [64])
      as [[Hc _]|(j & Hc & Hj & Ho & Hfirst)]; rewrite Hc.
    + destruct (Z.of_nat (length str) <? 1); discriminate.
    + destruct (Z.of_nat (length (take j str)) <? 1) eqn:Hu; [discriminate|].
      destruct (Z.of_nat (length (drop (j + length [64]) str)) <? 1) eqn:Hd;
        [discriminate|].
      destruct (resolveMx (drop (j + length [64]) str)) as [n|] eqn:Hmx;
        [|discriminate].
      destruct (Z.of_nat n <? 1) eqn:Hn; [discriminate|]. intros _.
      apply Z.ltb_ge in Hu, Hd, Hn.
      split; [lia|]. exists (take j str), (drop (j + length [64]) str).
      split; [apply (occurs_at_split str [64] j Ho)|].
      split; [|split; [|split]].
      * intros Hin. apply list_elem_of_lookup in Hin as [i Hi].
        pose proof (lookup_lt_Some _ _ _ Hi) as Hlt.
        rewrite length_take in Hlt. rewrite lookup_take_lt in Hi by lia.
        apply occurs_at_unit in Hi. rewrite Hfirst in Hi by lia.
        discriminate Hi.
      * intros E. rewrite E in Hu. simpl in Hu. lia.
      * intros E. rewrite E in Hd. simpl in Hd. lia.
      * exists n. split; [exact Hmx | lia].
  - intros (Hlen & user & domain & -> & Hno & Hu & Hd & n & Hmx & Hn).
    replace (320 <? Z.of_nat (length (user ++ [64] ++ domain))) with false
      by (symmetry; apply Z.ltb_ge; lia).
    rewrite (CutString_at_sign user domain Hno).
    replace (Z.of_nat (length user) <? 1) with false
      by (symmetry; apply Z.ltb_ge; destruct user; [contradiction|simpl; lia]).
    replace (Z.of_nat (length domain) <? 1) with false
      by (symmetry; apply Z.ltb_ge; destruct domain; [contradiction|simpl; lia]).
    rewrite Hmx.
    replace (Z.of_nat n <? 1) with false by (symmetry; apply Z.ltb_ge; lia).
    reflexivity.
Qed.

End Cutting.

Section Fuzzy.

Import Units Text_ts.

Context (toLowerCase : Z -> list Z).

Lemma FuzzyStringMatch_loop_greedy (steps : nat) (str search : list Z) :
  forall i cursor : nat,
    (length str <= steps + i)%nat -> (cursor <= length search)%nat ->
    FuzzyStringMatch_loop toLowerCase steps str search i cursor
    = Math_ts.greedy (map toLowerCase (drop i str))
                     (map toLowerCase (drop cursor search)).
Proof.
  assert (Hend : forall i cursor : nat,
    (cursor <= length search)%nat ->
    str !! i = None \/ search !! cursor = None ->
    bool_decide (cursor = length search)
    = Math_ts.greedy (map toLowerCase (drop i str))
                     (map toLowerCase (drop cursor search))).
  { intros i cursor Hc [Hi|Hj].
    - rewrite (drop_ge str i) by (now apply lookup_ge_None).
      simpl map. rewrite greedy_nil_l.
      destruct (search !! cursor) as [y|] eqn:Hj.
      + rewrite (drop_S _ _ _ Hj). simpl.
        apply bool_decide_eq_false_2. apply lookup_lt_Some in Hj. lia.
      + rewrite (drop_ge search cursor) by (now apply lookup_ge_None).
        apply bool_decide_eq_true_2. apply lookup_ge_None in Hj. lia.
    - rewrite (drop_ge search cursor) by (now apply lookup_ge_None).
      rewrite bool_decide_eq_true_2 by (apply lookup_ge_None in Hj; lia).
      simpl. now destruct (map toLowerCase (drop i str)). }
  induction steps as [|steps IH]; intros i cursor Hlen Hc; simpl.
  - apply Hend; [exact Hc|]. left. apply lookup_ge_None. lia.
  - destruct (str !! i) as [a|] eqn:Hi; [|apply Hend; auto].
    destruct (search !! cursor) as [b|] eqn:Hj; [|apply Hend; auto].
    pose proof (lookup_lt_Some _ _ _ Hj) as Hlt.
    rewrite (drop_S _ _ _ Hi), (drop_S _ _ _ Hj). simpl.
    destruct (bool_decide (toLowerCase a = toLowerCase b)).
    + apply IH; lia.
    + rewrite IH by lia. now rewrite (drop_S _ _ _ Hj).
Qed.

(** X25: [FuzzyStringMatch] answers true exactly when the units of
    [search], lower-cased one by one, can be read off those of [str] from
    left to right, skipping units; [null], [undefined] and the empty
    string count as a string without units. *)
Theorem X25_FuzzyStringMatch_subsequence (str : option (list Z))
    (search : list Z) :
  FuzzyStringMatch toLowerCase str search = true
  <-> sublist (map toLowerCase search) (map toLowerCase (default [] str)).
Proof.
  assert (Hnone : bool_decide (search = []) = true
                  <-> sublist (map toLowerCase search) []).
  { rewrite bool_decide_eq_true. split; [intros ->; constructor|].
    intros H. apply sublist_nil_r in H. now destruct search. }
  unfold FuzzyStringMatch. destruct str as [str|]; [|exact Hnone].
  simpl default. destruct (bool_decide (str = [])) eqn:E.
  - apply bool_decide_eq_true in E. subst str. exact Hnone.
  - rewrite FuzzyStringMatch_loop_greedy by lia. apply greedy_sublist.
Qed.

Lemma alternating_snoc (segments : list Segment) (x : Segment) :
  alternating segments ->
  match last segments with
  | Some y => seg_match y <> seg_match x
  | None => True
  end ->
  alternating (segments ++ [x]).
Proof.
  induction segments as [|a rest IH]; intros Ha Hl; [simpl; auto|].
  destruct rest as [|b rest].
  - simpl in *. auto.
  - destruct Ha as [Hab Ha]. change ((a :: b :: rest) ++ [x])
      with (a :: (b :: rest) ++ [x]).
    split; [exact Hab|]. apply IH; [exact Ha|exact Hl].
Qed.

Lemma alternating_flags (s1 s2 : list Segment) :
  map seg_match s1 = map seg_match s2 -> alternating s1 -> alternating s2.
Proof.
  revert s2. induction s1 as [|a r1 IH]; intros [|b r2] Hm Ha;
    try discriminate Hm; [exact I|].
  injection Hm as Hab Hr. destruct Ha as [Hn Ha].
  split; [|now apply IH].
  destruct r1 as [|a' r1], r2 as [|b' r2]; try discriminate Hr; [exact I|].
  injection Hr as Hab' _. congruence.
Qed.

Lemma SegmentPush_keeps (segments : list Segment) (m : bool) (s : list Z) :
  alternating segments ->
  alternating (SegmentPush segments m s)
  /\ concat (map seg_str (SegmentPush segments m s))
     = concat (map seg_str segments) ++ s.
Proof.
  intros Ha. unfold SegmentPush. destruct (last segments) as [l|] eqn:Hl.
  - apply last_Some in Hl as [pre ->]. rewrite removelast_last.
    destruct (Bool.eqb (seg_match l) m) eqn:E.
    + apply Bool.eqb_prop in E. split.
      * apply (alternating_flags (pre ++ [l])); [|exact Ha].
        rewrite !map_app. simpl. now rewrite E.
      * rewrite !map_app, !concat_app. simpl. rewrite !app_nil_r.
        now rewrite app_assoc.
    + split.
      * apply alternating_snoc; [exact Ha|]. rewrite last_snoc. simpl.
        intros Heq. rewrite Heq, Bool.eqb_reflx in E. discriminate E.
      * rewrite map_app, concat_app. simpl. now rewrite app_nil_r.
  - apply last_None in Hl as ->. simpl. split; [auto|]. now rewrite app_nil_r.
Qed.

Lemma GetMatchingSegments_loop_keeps (steps : nat) (str search : list Z) :
  forall (segments : list Segment) (i cursor : nat),
    alternating segments ->
    concat (map seg_str segments) = take i str ->
    let '(segments', i', _) :=
      GetMatchingSegments_loop toLowerCase steps str search segments i cursor in
    alternating segments'
    /\ concat (map seg_str segments') = take i' str.
Proof.
  induction steps as [|steps IH]; intros segments i cursor Ha Hc; simpl.
  - auto.
  - destruct (str !! i) as [a|] eqn:Hi; [|auto].
    destruct (search !! cursor) as [b|]; [|auto].
    destruct (bool_decide (toLowerCase a = toLowerCase b)).
    + destruct (SegmentPush_keeps segments true [a] Ha) as [Ha' Hc'].
      apply IH; [exact Ha'|]. rewrite Hc', Hc.
      symmetry. now apply take_S_r.
    + destruct (SegmentPush_keeps segments false [a] Ha) as [Ha' Hc'].
      apply IH; [exact Ha'|]. rewrite Hc', Hc.
      symmetry. now apply take_S_r.
Qed.

(** X26: the segments of [GetMatchingSegments] cut the string.  No two
    neighbouring segments carry the same flag; and the segments, unless
    there is none, joined in order spell the string.  With [weak] set
    they always do. *)
Theorem X26_GetMatchingSegments_cut_the_string (str search : list Z)
    (weak : bool) :
  let segments := GetMatchingSegments toLowerCase str search weak in
  alternating segments
  /\ (segments = [] \/ concat (map seg_str segments) = str)
  /\ (weak = true -> concat (map seg_str segments) = str).
Proof.
  cbv zeta. unfold GetMatchingSegments.
  destruct (bool_decide (length search = 0%nat)).
  - simpl. rewrite app_nil_r. auto.
  - pose proof (GetMatchingSegments_loop_keeps (length str) str search [] 0 0 I
                  eq_refl) as H.
    destruct (GetMatchingSegments_loop toLowerCase (length str) str search [] 0 0)
      as [[segments i] cursor]. destruct H as [Ha Hc].
    assert (Hfull :
      alternating (if bool_decide (i < length str)%nat
                   then SegmentPush segments false (slice_from str (Z.of_nat i))
                   else segments)
      /\ concat (map seg_str
                   (if bool_decide (i < length str)%nat
                    then SegmentPush segments false (slice_from str (Z.of_nat i))
                    else segments)) = str).
    { destruct (bool_decide (i < length str)%nat) eqn:E.
      - destruct (SegmentPush_keeps segments false
                    (slice_from str (Z.of_nat i)) Ha) as [Ha' Hc'].
        split; [exact Ha'|]. rewrite Hc', Hc, slice_from_drop.
        apply take_drop.
      - apply bool_decide_eq_false in E. split; [exact Ha|].
        rewrite Hc. apply take_ge. lia. }
    destruct Hfull as [Ha' Hc'].
    destruct (negb (bool_decide (cursor = length search)) && negb weak) eqn:E.
    + split; [exact I|]. split; [now left|].
      intros ->. rewrite andb_false_r in E. discriminate E.
    + auto.
Qed.

End Fuzzy.

(** ** [app/util/format/index.ts] *)

Section CheckDigit.

Import Units Format_ts.

Lemma weighted_snoc (l : list Z) (d : Z) (three : bool) :
  weighted_from_right (l ++ [d]) three
  = weighted_from_right l three
    + (if xorb three (Nat.odd (length l)) then 3 else 1) * d.
Proof.
  revert three. induction l as [|x l IH]; intros three.
  - simpl. destruct three; simpl; lia.
  - simpl app. simpl weighted_from_right. rewrite IH.
    simpl length. rewrite Nat.odd_succ, <- Nat.negb_odd.
    destruct three, (Nat.odd (length l)); simpl; lia.
Qed.

Lemma parity_weight (n : nat) :
  (if Z.rem (Z.of_nat n) 2 =? 0 then 3 else 1)
  = (if xorb true (Nat.odd n) then 3 else 1).
Proof.
  rewrite Z.rem_mod_nonneg by lia.
  destruct (Nat.odd n) eqn:E; simpl.
  - apply Nat.odd_spec in E as [k ->].
    replace (Z.of_nat (2 * k + 1)) with (1 + Z.of_nat k * 2) by lia.
    now rewrite Z.mod_add by lia.
  - rewrite <- Nat.negb_even in E. apply negb_false_iff, Nat.even_spec in E
      as [k ->].
    replace (Z.of_nat (2 * k)) with (0 + Z.of_nat k * 2) by lia.
    now rewrite Z.mod_add by lia.
Qed.

Lemma SSCCCheckDigit_loop_weighted (steps : nat) (suf : list Z) :
  forall (pre : list Z) (sum : Z),
    (length suf <= steps)%nat ->
    SSCCCheckDigit_loop steps (map Some (pre ++ suf)) (length pre) (Some sum)
    = Some (sum + weighted_from_right (rev suf) true).
Proof.
  revert suf. induction steps as [|steps IH]; intros suf pre sum Hlen.
  - destruct suf; [|simpl in Hlen; lia]. simpl. f_equal. lia.
  - simpl SSCCCheckDigit_loop. rewrite list_lookup_fmap.
    destruct suf as [|d suf].
    + rewrite app_nil_r. rewrite lookup_ge_None_2 by lia. simpl. f_equal. lia.
    + rewrite (list_lookup_middle pre suf d _ eq_refl). simpl fmap.
      rewrite length_map, List.length_app. simpl length.
      replace (Z.of_nat (length pre + S (length suf)) - Z.of_nat (length pre) - 1)
        with (Z.of_nat (length suf)) by lia.
      rewrite parity_weight. simpl nan_mul. simpl nan_add.
      rewrite (cons_middle d pre suf), app_assoc.
      replace (S (length pre)) with (length (pre ++ [d]))
        by (rewrite List.length_app; simpl; lia).
      rewrite IH by (simpl in Hlen; lia). f_equal.
      simpl rev. rewrite weighted_snoc, length_rev.
      destruct (Nat.odd (length suf)); simpl; lia.
Qed.

(** X27: on a string of decimal digits [SSCCCheckDigit] takes the last 17
    of them, answers a digit from 0 to 9, and that digit added to the
    digits weighted 3, 1, 3, ... from the right gives a multiple of 10. *)
Theorem X27_SSCCCheckDigit_completes_to_ten (sscc : list Z) :
  Forall (fun c => is_digit c = true) sscc ->
  let digits := map (fun c => c - 48) (slice_from sscc (-17)) in
  exists d,
    SSCCCheckDigit sscc = Some d
    /\ 0 <= d <= 9
    /\ (weighted_from_right (rev digits) true + d) mod 10 = 0
    /\ (length digits <= 17)%nat
    /\ digits = map (fun c => c - 48)
                    (drop (length sscc - 17) sscc).
Proof.
  intros Hd. cbv zeta.
  assert (Hslice : slice_from sscc (-17) = drop (length sscc - 17) sscc).
  { unfold slice_from, slice. cbv zeta. change (-17 <? 0) with true. cbv iota.
    replace (Z.of_nat (length sscc) <? 0) with false
      by (symmetry; apply Z.ltb_ge; lia).
    rewrite Z.min_id.
    replace (Z.to_nat ((Z.of_nat (length sscc) + -17) `max` 0))
      with (length sscc - 17)%nat by lia.
    apply take_ge. rewrite length_drop. lia. }
  rewrite Hslice. set (tail := drop (length sscc - 17) sscc).
  assert (Htail : Forall (fun c => is_digit c = true) tail)
    by (unfold tail; now apply Forall_drop).
  assert (Hnum : map Number_unit tail = map Some (map (fun c => c - 48) tail)).
  { clear -Htail. induction Htail as [|c l Hc _ IH]; [reflexivity|].
    simpl. rewrite IH. unfold Number_unit. unfold is_digit in Hc.
    now rewrite Hc. }
  unfold SSCCCheckDigit. cbv zeta. rewrite Hslice. fold tail. rewrite Hnum.
  rewrite length_map.
  pose proof (SSCCCheckDigit_loop_weighted
                (length (map (fun c => c - 48) tail))
                (map (fun c => c - 48) tail) [] 0 ltac:(lia)) as Hloop.
  simpl app in Hloop. simpl length in Hloop at 2. rewrite Hloop.
  set (sum := 0 + weighted_from_right (rev (map (fun c => c - 48) tail)) true).
  exists (- (- sum / 10) * 10 - sum).
  pose proof (Z.div_mod (- sum) 10 ltac:(lia)) as Hdm.
  pose proof (Z.mod_pos_bound (- sum) 10 ltac:(lia)) as Hb.
  split; [reflexivity|]. split; [lia|]. split; [|split].
  - replace (weighted_from_right (rev (map (fun c => c - 48) tail)) true
             + (- (- sum / 10) * 10 - sum))
      with (0 + (- (- sum / 10)) * 10) by (unfold sum; lia).
    now rewrite Z.mod_add by lia.
  - rewrite length_map. unfold tail. rewrite length_drop. lia.
  - reflexivity.
Qed.

End CheckDigit.

Section Buffers.

Import Units Format_ts.

Lemma BufferStartsWith_loop_agree (bufferArray target : list Z) (steps : nat) :
  forall i : nat,
    (length target <= steps + i)%nat ->
    BufferStartsWith_loop steps bufferArray target i = true
    <-> forall k, (i <= k < length target)%nat ->
          bufferArray !! k = target !! k.
Proof.
  induction steps as [|steps IH]; intros i Hlen; simpl.
  - split; [intros _ k Hk; lia | reflexivity].
  - destruct (bool_decide (i < length target)%nat) eqn:Hi.
    + apply bool_decide_eq_true in Hi.
      destruct (bool_decide (bufferArray !! i = target !! i)) eqn:E; simpl.
      * apply bool_decide_eq_true in E. rewrite IH by lia. split.
        -- intros H k Hk. destruct (decide (k = i)) as [->|Hne]; [exact E|].
           apply H. lia.
        -- intros H k Hk. apply H. lia.
      * apply bool_decide_eq_false in E. split; [discriminate|].
        intros H. elim E. apply H. lia.
    + apply bool_decide_eq_false in Hi. split; [intros _ k Hk; lia|reflexivity].
Qed.

Lemma prefix_lookups (whole target : list Z) :
  (forall k, (k < length target)%nat -> whole !! k = target !! k)
  <-> target `prefix_of` whole.
Proof.
  split.
  - intros H. exists (drop (length target) whole).
    rewrite <- (take_drop (length target) whole) at 1. f_equal.
    apply list_eq. intros k. destruct (Nat.lt_ge_cases k (length target)).
    + rewrite lookup_take_lt by lia. now apply H.
    + rewrite lookup_take_ge by lia. symmetry. now apply lookup_ge_None.
  - intros [rest ->] k Hk. now apply lookup_app_l.
Qed.

Lemma BufferEndsWith_loop_agree (bufferArray target : list Z) (steps : nat) :
  forall i : Z,
    1 <= i -> Z.of_nat (length target) < Z.of_nat steps + i ->
    BufferEndsWith_loop steps bufferArray target i = true
    <-> forall k, i <= k <= Z.of_nat (length target) ->
          Math_ts.at_index bufferArray (Z.of_nat (length bufferArray) - k)
          = Math_ts.at_index target (Z.of_nat (length target) - k).
Proof.
  induction steps as [|steps IH]; intros i Hi Hlen; simpl.
  - split; [intros _ k Hk; lia | reflexivity].
  - destruct (i <=? Z.of_nat (length target)) eqn:Hle.
    + apply Z.leb_le in Hle.
      destruct (bool_decide
                  (Math_ts.at_index bufferArray (Z.of_nat (length bufferArray) - i)
                   = Math_ts.at_index target (Z.of_nat (length target) - i)))
        eqn:E; simpl.
      * apply bool_decide_eq_true in E. rewrite IH by lia. split.
        -- intros H k Hk. destruct (decide (k = i)) as [->|Hne]; [exact E|].
           apply H. lia.
        -- intros H k Hk. apply H. lia.
      * apply bool_decide_eq_false in E. split; [discriminate|].
        intros H. elim E. apply H. lia.
    + apply Z.leb_gt in Hle. split; [intros _ k Hk; lia | reflexivity].
Qed.

Lemma suffix_lookups (whole target : list Z) :
  (forall k, 1 <= k <= Z.of_nat (length target) ->
     Math_ts.at_index whole (Z.of_nat (length whole) - k)
     = Math_ts.at_index target (Z.of_nat (length target) - k))
  <-> target `suffix_of` whole.
Proof.
  assert (Hat : forall (l : list Z) (n : nat),
            Math_ts.at_index l (Z.of_nat n) = l !! n).
  { intros l n. unfold Math_ts.at_index.
    replace (Z.of_nat n <? 0) with false by (symmetry; apply Z.ltb_ge; lia).
    now rewrite Nat2Z.id. }
  split.
  - intros H.
    assert (Hlen : (length target <= length whole)%nat).
    { destruct (Nat.le_gt_cases (length target) (length whole)) as [?|Hgt];
        [assumption|].
      specialize (H (Z.of_nat (length target)) ltac:(lia)).
      rewrite Z.sub_diag in H. unfold Math_ts.at_index at 1 in H.
      replace (Z.of_nat (length whole) - Z.of_nat (length target) <? 0)
        with true in H by (symmetry; apply Z.ltb_lt; lia).
      change 0 with (Z.of_nat 0) in H. rewrite Hat in H.
      destruct target; [simpl in Hgt; lia | discriminate H]. }
    exists (take (length whole - length target) whole).
    rewrite <- (take_drop (length whole - length target) whole) at 1. f_equal.
    apply list_eq. intros k. rewrite lookup_drop.
    destruct (Nat.lt_ge_cases k (length target)) as [Hk|Hk].
    + specialize (H (Z.of_nat (length target - k)) ltac:(lia)).
      replace (Z.of_nat (length whole) - Z.of_nat (length target - k))
        with (Z.of_nat (length whole - length target + k)) in H by lia.
      replace (Z.of_nat (length target) - Z.of_nat (length target - k))
        with (Z.of_nat k) in H by lia.
      now rewrite !Hat in H.
    + rewrite (lookup_ge_None_2 target) by lia. apply lookup_ge_None. lia.
  - intros [pre ->] k Hk. rewrite List.length_app.
    replace (Z.of_nat (length pre + length target) - k)
      with (Z.of_nat (length pre + (length target - Z.to_nat k))) by lia.
    replace (Z.of_nat (length target) - k)
      with (Z.of_nat (length target - Z.to_nat k)) by lia.
    rewrite !Hat. now rewrite lookup_app_r, Nat.add_comm, Nat.add_sub by lia.
Qed.

(** X28: [BufferStartsWith] and [BufferEndsWith] compare the target with
    the start and the end of the whole underlying buffer.  They answer
    true exactly when the target is no longer than the source and is a
    prefix, or a suffix, of the buffer the source is taken from: for an
    [ArrayBuffer] the bytes of the source itself, for a view the bytes of
    its buffer wherever the view starts and ends. *)
Theorem X28_buffer_tests_read_whole_buffer (buffer : BufferSource)
    (target : list Z) :
  (BufferStartsWith buffer target = true
   <-> (length target <= byteLength_of buffer)%nat
       /\ target `prefix_of` bufferArray_of buffer)
  /\ (BufferEndsWith buffer target = true
      <-> (length target <= byteLength_of buffer)%nat
          /\ target `suffix_of` bufferArray_of buffer).
Proof.
  unfold BufferStartsWith, BufferEndsWith.
  destruct (bool_decide (byteLength_of buffer < length target)%nat) eqn:E.
  - apply bool_decide_eq_true in E.
    split; (split; [discriminate | intros [H _]; lia]).
  - apply bool_decide_eq_false in E. split.
    + rewrite BufferStartsWith_loop_agree by lia. rewrite <- prefix_lookups.
      split.
      * intros H. split; [lia|]. intros k Hk. apply H. lia.
      * intros [_ H] k Hk. apply H. lia.
    + rewrite BufferEndsWith_loop_agree by lia. rewrite <- suffix_lookups.
      split; [intros H; split; [lia | exact H] | intros [_ H]; exact H].
Qed.

End Buffers.

(** ** The sample trees *)

Import ExactLines Sample.

Example tree_listing_ok : listing_ok tree.
Proof. apply (bool_decide_unpack _). vm_cast_no_check I. Qed.

Example stat_qux : lstat (fullPath root +:+ "qux") tree = (Done StDir, tree).
Proof. vm_cast_no_check (eq_refl (Done StDir, tree)). Qed.

Example qux_tree : barrel 1 qux tree = (Done true, tree_qux).
Proof. vm_cast_no_check (eq_refl (Done true, tree_qux)). Qed.

Example main_tree : main 2 tree = (Done true, tree_done).
Proof. vm_cast_no_check (eq_refl (Done true, tree_done)). Qed.

Example read_locked :
  fst (readFile (fullPath root +:+ ".barrelignore") locked) = Throw EACCES.
Proof. vm_cast_no_check (eq_refl (@Throw string EACCES)). Qed.

(** The rule file of the root excludes [secret.ts]: the aggregator has the
    one line for [public.ts]. *)
Example main_secretive : main 1 secretive = (Done true, secretive_done).
Proof. vm_cast_no_check (eq_refl (Done true, secretive_done)). Qed.

(** A rule that matches the name of a sub-directory does not keep the
    walker out of it, nor the directory out of the aggregator. *)
Example main_shadowed :
  ignored (new_Context "./" None) "qux" = false
  /\ ignored {| parent := None; rules := Some (ignore_add "qux");
               folder := "./"; fullPath := "./" |} "qux" = true
  /\ main 2 shadowed = (Done true, shadowed_done).
Proof.
  split; [reflexivity|]. split; [reflexivity|].
  vm_cast_no_check (eq_refl (Done true, shadowed_done)).
Qed.

(** A failed write is thrown to the caller. *)
Example main_blocked : main 1 blocked = (Throw EISDIR, blocked).
Proof. vm_cast_no_check (eq_refl (@Throw bool EISDIR, blocked)). Qed.

(** Out of budget the model answers [Timeout]; [barrel_total] bounds the
    budget a tree needs. *)
Example main_tree_short : fst (main 1 tree) = Timeout.
Proof. vm_cast_no_check (eq_refl (@Timeout bool)). Qed.

Lemma C1_witness :
  "secret.ts"%string <> ".git"%string
  /\ "secret.ts"%string <> "node_modules"%string
  /\ ignored lib "secret.ts" = ignored guarded ("lib/" +:+ "secret.ts").
Proof.
  assert (H1 : "secret.ts"%string <> ".git"%string) by discriminate.
  assert (H2 : "secret.ts"%string <> "node_modules"%string) by discriminate.
  split; [exact H1|]. split; [exact H2|].
  destruct (C1_ignored_resolution lib "secret.ts" H1 H2) as (_ & _ & H & _).
  apply H; [intros r Hr; discriminate Hr | reflexivity].
Defined.

Lemma C2_witness :
  skipped "qux" = false
  /\ lstat (fullPath root +:+ "qux") tree = (Done StDir, tree)
  /\ each (barrel 1) root ["qux"%string] [] tree
     = each (barrel 1) root [] [mkEntry (Namespace "qux") "qux/mod.ts"] tree_qux.
Proof.
  assert (H1 : skipped "qux" = false) by reflexivity.
  split; [exact H1|]. split; [exact stat_qux|].
  destruct (C2_directories_always_entered 1 root "qux" [] [] tree H1 stat_qux)
    as (_ & H & _).
  exact (H tree_qux qux_tree).
Defined.

Lemma C3_witness :
  barrel 2 root tree = (Done true, tree_done)
  /\ exists includes r,
       includes <> []
       /\ file_at tree_done (fullPath root +:+ "mod.ts")
          = Some (r, fold_left emit includes EmptyString).
Proof.
  split; [exact main_tree|].
  destruct (C3_output_iff_entries 1 root tree tree_done true main_tree)
    as (this' & includes & fs1 & _ & _ & [(_ & Hb & _)|(Hne & _ & _ & r & Hf)]).
  - discriminate Hb.
  - exists includes, r. split; [exact Hne | exact Hf].
Defined.

Lemma C7_witness :
  barrel 1 qux tree = (Done true, tree_qux)
  /\ exists includes r,
       file_at tree_qux (fullPath qux +:+ "mod.ts")
       = Some (r, aggregator includes).
Proof.
  split; [exact qux_tree|].
  destruct (C7_aggregator_text 0 qux tree tree_qux qux_tree)
    as (this' & includes & fs1 & r & _ & _ & _ & _ & Hf).
  exists includes, r. exact Hf.
Defined.

Lemma C8_witness :
  rules root = None
  /\ fst (readFile (fullPath root +:+ ".barrelignore") locked) = Throw EACCES
  /\ load_rules root locked = (Done root, locked)
  /\ barrel 2 root locked = walk (barrel 1) root locked.
Proof.
  assert (H1 : rules root = None) by reflexivity.
  split; [exact H1|]. split; [exact read_locked|].
  destruct (C8_unreadable_rules_are_no_rules 1 root locked EACCES H1 read_locked)
    as (_ & Hl & Hb).
  split; [exact Hl | exact Hb].
Defined.

Lemma C9_witness :
  listing_ok tree
  /\ main 2 tree = (Done true, tree_done)
  /\ main 2 tree_done = (Done true, tree_done).
Proof.
  split; [exact tree_listing_ok|]. split; [exact main_tree|].
  exact (C9_rerun_is_identity 2 tree tree_done true tree_listing_ok main_tree).
Defined.

(** ** More on the sample trees *)

Example barrel_blocked : barrel 1 root blocked = (Throw EISDIR, blocked).
Proof. vm_cast_no_check (eq_refl (@Throw bool EISDIR, blocked)). Qed.

Example list_nowhere :
  fst (readdir (fullPath root) (∅ : gmap string node)) = Throw ENOENT.
Proof. vm_cast_no_check (eq_refl (@Throw (list string) ENOENT)). Qed.

Example load_qux : load_rules qux tree = (Done qux, tree).
Proof. vm_cast_no_check (eq_refl (Done qux, tree)). Qed.

Example list_qux : readdir (fullPath qux) tree = (Done ["a.ts"%string], tree).
Proof. vm_cast_no_check (eq_refl (Done ["a.ts"%string], tree)). Qed.

Example stat_a :
  fst (lstat (fullPath qux +:+ "a.ts") tree) = Done StFile.
Proof. vm_cast_no_check (eq_refl (Done StFile)). Qed.

Example gather_tree :
  gather (barrel 1) root tree
  = (Done [stage "foo.ts" false; stage "bar-baz.ts" false; stage "qux" true],
     tree_qux).
Proof.
  vm_cast_no_check
    (eq_refl (Done [stage "foo.ts" false; stage "bar-baz.ts" false;
                    stage "qux" true], tree_qux)).
Qed.


Lemma X4_witness :
  fst (barrel 1 root blocked) <> Done true
  /\ file_at (snd (barrel 1 root blocked)) (fullPath root +:+ "mod.ts")
     = file_at blocked (fullPath root +:+ "mod.ts").
Proof.
  assert (H : fst (barrel 1 root blocked) <> Done true)
    by (rewrite barrel_blocked; discriminate).
  split; [exact H|].
  exact (X4_no_aggregator_unless_true 1 root blocked H).
Defined.

Lemma X5_witness :
  fst (readdir (fullPath root) (∅ : gmap string node)) = Throw ENOENT
  /\ barrel 1 root ∅ = (Throw ENOENT, ∅).
Proof.
  split; [exact list_nowhere|].
  exact (X5_unlistable_directory_throws 0 root ∅ ENOENT list_nowhere).
Defined.

Lemma X6_witness :
  load_rules qux tree = (Done qux, tree)
  /\ readdir (fullPath qux) tree = (Done ["a.ts"%string], tree)
  /\ barrel 1 qux tree
     = flush qux (map (fun n => mkEntry (Namespace n) n)
                      (List.filter (eligible qux tree) ["a.ts"%string])) tree.
Proof.
  split; [exact load_qux|]. split; [exact list_qux|].
  apply (X6_leaf_directory 0 qux qux tree ["a.ts"%string] load_qux list_qux).
  intros n Hn _. apply list_elem_of_singleton in Hn as ->.
  exists StFile. split; [exact stat_a | reflexivity].
Defined.

Lemma X7_witness :
  gather (barrel 1) root tree
  = (Done [stage "foo.ts" false; stage "bar-baz.ts" false; stage "qux" true],
     tree_qux)
  /\ exists (names : list string) (chosen : list (string * bool)),
       readdir (fullPath root) tree = (Done names, tree)
       /\ [stage "foo.ts" false; stage "bar-baz.ts" false; stage "qux" true]
          = map (fun nd => stage (fst nd) (snd nd)) chosen
       /\ sublist (map fst chosen) names
       /\ Forall (fun nd => skipped (fst nd) = false) chosen.
Proof.
  split; [exact gather_tree|].
  exact (X7_entries_follow_listing 1 root tree tree_qux _ gather_tree).
Defined.


Lemma X9_witness :
  slashed lib = true
  /\ ignored lib "secret.ts"
     = negb (structural "secret.ts")
       && existsb matches (lineage lib "secret.ts").
Proof.
  assert (H : slashed lib = true) by reflexivity.
  split; [exact H|].
  exact (proj1 (X9_rules_cascade lib "secret.ts" H)).
Defined.

Lemma X10_witness :
  Reference.has_dot "ts" = false
  /\ Reference.has_dot "js" = false
  /\ Namespace ("foo" +:+ String "." "ts") = Namespace ("foo" +:+ String "." "js").
Proof.
  assert (H1 : Reference.has_dot "ts" = false) by reflexivity.
  assert (H2 : Reference.has_dot "js" = false) by reflexivity.
  split; [exact H1|]. split; [exact H2|].
  exact (proj1 (X10_extension_is_dropped "foo" "ts" "js" H1 H2)).
Defined.


Lemma X17_witness :
  Forall (fun c => 0 <= c) [104; 101; 108; 108; 111]
  /\ Math_ts.Hash72_string [104; 101; 108; 108; 111]
     = (foldr Z.add 0 [104; 101; 108; 108; 111]) mod 1296.
Proof.
  assert (H : Forall (fun c => 0 <= c) [104; 101; 108; 108; 111])
    by (repeat (constructor; try lia)).
  split; [exact H|].
  exact (proj1 (X17_Hash72_is_sum_mod_1296 _ H)).
Defined.

Lemma X18_witness :
  0 <= 5 /\ 0 < 4 /\ 5 + 4 <= Math_ts.MAX_SAFE_INTEGER
  /\ 5 <= Math_ts.AlignUpInteger 5 4 < 5 + 4.
Proof.
  assert (H1 : 0 <= 5) by lia. assert (H2 : 0 < 4) by lia.
  assert (H3 : 5 + 4 <= Math_ts.MAX_SAFE_INTEGER) by (vm_compute; discriminate).
  split; [exact H1|]. split; [exact H2|]. split; [exact H3|].
  exact (proj1 (proj2 (X18_align_nonnegative 5 4 H1 H2 H3))).
Defined.


Lemma X21_witness :
  (forall (i j : nat) (a b : Z), (i <= j)%nat ->
     [1; 3; 5; 7; 9] !! i = Some a -> [1; 3; 5; 7; 9] !! j = Some b ->
     seven (Some b) <= seven (Some a))
  /\ [1; 3; 5; 7; 9] !! 3%nat = Some 7
  /\ seven (Some 7) = 0
  /\ Math_ts.BinarySearchIndex [1; 3; 5; 7; 9] seven <> -1.
Proof.
  assert (H : forall (i j : nat) (a b : Z), (i <= j)%nat ->
     [1; 3; 5; 7; 9] !! i = Some a -> [1; 3; 5; 7; 9] !! j = Some b ->
     seven (Some b) <= seven (Some a)).
  { intros i j a b Hij Ha Hb.
    assert (Hle : a <= b).
    { destruct i as [|[|[|[|[|i]]]]]; simpl in Ha; try discriminate Ha;
        injection Ha as <-;
        destruct j as [|[|[|[|[|j]]]]]; simpl in Hb; try discriminate Hb;
        injection Hb as <-; lia. }
    unfold seven.
    destruct (Z.sgn_spec (7 - a)) as [[? ->]|[[? ->]|[? ->]]];
      destruct (Z.sgn_spec (7 - b)) as [[? ->]|[[? ->]|[? ->]]]; lia. }
  split; [exact H|]. split; [reflexivity|]. split; [reflexivity|].
  exact (proj1 (X21_BinarySearch_complete [1; 3; 5; 7; 9] seven 3 7 H
                  eq_refl eq_refl)).
Defined.

Lemma X27_witness :
  Forall (fun c => Format_ts.is_digit c = true)
         (Units.units "12345678901234567")
  /\ exists d,
       Format_ts.SSCCCheckDigit (Units.units "12345678901234567") = Some d
       /\ 0 <= d <= 9.
Proof.
  assert (H : Forall (fun c => Format_ts.is_digit c = true)
                     (Units.units "12345678901234567"))
    by (vm_compute; repeat constructor).
  split; [exact H|].
  destruct (X27_SSCCCheckDigit_completes_to_ten _ H) as (d & Hd & Hr & _).
  exists d. split; [exact Hd | exact Hr].
Defined.
